(** * GenericMatcher (edsnlp/pipelines/generic/generic.py)

    A shallow embedding of the generic matcher component: the normalisation
    of the [terms] / [regex] dictionaries, the resolution of the [attr]
    configuration, the construction of the component, the per-document
    [process] pass and the [__call__] wrapper that writes the entities back. *)

From Stdlib Require Import ZArith Bool List Ascii String Permutation Sorted Lia.
From stdpp Require Import base option list gmap sets strings.

Open Scope Z_scope.

(** ** Python strings on their ASCII fragment

    [str.upper] maps the letters a..z to A..Z and leaves every other ASCII
    character alone. *)

Definition upper_ascii (c : ascii) : ascii :=
  let n := nat_of_ascii c in
  if (97 <=? n)%nat && (n <=? 122)%nat then ascii_of_nat (n - 32) else c.

Fixpoint upper (s : string) : string :=
  match s with
  | EmptyString => EmptyString
  | String c s' => String (upper_ascii c) (upper s')
  end.

(** Module constants of generic.py. *)
Definition TERM_ATTR : string := "term_attr".
Definition DEFAULT_ATTR : string := "NORM".

(** ** Configuration values *)

(** A value of the [terms] / [regex] dictionaries:
    [Union[List[str], str]]. *)
Inductive value :=
  | VStr (s : string)
  | VList (l : list string).

#[global] Instance value_eq_dec : EqDecision value.
Proof. solve_decision. Defined.

(** [Dict[str, Union[List[str], str]]]. *)
Abbreviation pydict := (gmap string value).

(** The [attr] argument: [Union[Dict[str, str], str]]. *)
Inductive attr_spec :=
  | AttrStr (s : string)
  | AttrDict (m : gmap string string).

(** What construction can report through [logger.warning]. *)
Inductive warning :=
  | WarnFuzzySlow
  | WarnIgnoredKeys (diff : gset string)
  | WarnNoNormaliser.

(** Exceptions: the [ValueError] of [_prepare_attr] carries the offending
    set of values; [EngineError] stands for whatever a matching engine
    raises while it scans; [EntsOverlap] is the [ValueError] (E1010) with
    which assigning [doc.ents] refuses a token that lies in two spans. *)
Inductive exn :=
  | ValueError (vals : gset string)
  | EngineError (msg : string)
  | EntsOverlap (token : Z).

(** ** [_prepare_attr] *)

(** [for k in set(regex) | {TERM_ATTR}: if k not in attr: attr[k] = DEFAULT_ATTR] *)
Definition fill_default (k : string) (attr : gmap string string) : gmap string string :=
  match attr !! k with
  | Some _ => attr
  | None => <[k := DEFAULT_ATTR]> attr
  end.

Definition fill_defaults (keys : gset string) (attr : gmap string string)
  : gmap string string :=
  set_fold fill_default attr keys.

(** [{"NORM", "TEXT"}] *)
Definition supported : gset string := {["NORM"; "TEXT"]}.

Definition _prepare_attr (attr : attr_spec) (regex : pydict) (pipe_names : list string)
  : list warning * (exn + gmap string string) :=
  match attr with
  | AttrStr s =>
      (* Setting the provided attribute for every term/regex *)
      ([], inr (gset_to_gmap (upper s) (dom regex ∪ {[TERM_ATTR]})))
  | AttrDict m =>
      let attr : gmap string string := upper <$> m in
      let attr := fill_defaults (dom regex ∪ {[TERM_ATTR]}) attr in
      (* Checks *)
      let diff := dom attr ∖ dom regex ∖ {[TERM_ATTR]} in
      let w1 := if decide (diff = ∅) then [] else [WarnIgnoredKeys diff] in
      let vals : gset string := set_map (λ k : string, attr !!! k) (dom regex) in
      if decide (vals ∖ supported = ∅) then
        let vals := vals ∪ {[attr !!! TERM_ATTR]} in
        let w2 :=
          if bool_decide ("NORM" ∈ vals) && negb (bool_decide ("normaliser" ∈ pipe_names))
          then [WarnNoNormaliser] else [] in
        (w1 ++ w2, inr attr)
      else
        (w1, inl (ValueError vals))
  end.

(** ** The caller's dictionaries live on a heap

    [terms] and [regex] are passed by reference and [_to_dict_of_lists]
    assigns into the object it was given, so dictionaries are heap objects
    named by locations. *)

Abbreviation loc := positive.
Abbreviation heap := (gmap loc (gmap string value)).

(** One iteration of [for k, v in d.items(): if isinstance(v, str): d[k] = [v]]. *)
Definition listify_item (d : pydict) (kv : string * value) : pydict :=
  match kv.2 with
  | VStr s => <[kv.1 := VList [s]]> d
  | VList _ => d
  end.

Definition listify (d : pydict) : pydict :=
  foldl listify_item d (map_to_list d).

(** [dict()] *)
Definition alloc_dict (h : heap) : heap * loc :=
  let l := fresh (dom h) in (<[l := ∅]> h, l).

(** [d = d or dict()]: [None] and the empty dictionary are both falsy. *)
Definition or_dict (d : option loc) (h : heap) : heap * loc :=
  match d with
  | None => alloc_dict h
  | Some l => if decide (h !!! l = (∅ : pydict)) then alloc_dict h else (h, l)
  end.

Definition _to_dict_of_lists (d : option loc) (h : heap) : heap * loc :=
  let '(h, l) := or_dict d h in
  (<[l := listify (h !!! l)]> h, l).

(** What the loop of [_to_dict_of_lists] leaves under a key. *)
Definition as_list (v : value) : value :=
  match v with
  | VStr s => VList [s]
  | VList l => VList l
  end.

(** ** Construction *)

(** The part of [nlp] the component reads: the pipeline's stage names and
    the tokenizer (a term string to its token texts). *)
Record Language := {
  pipe_names : list string;
  tokenizer : string → list string;
}.

Inductive kwval :=
  | KwInt (z : Z)
  | KwBool (b : bool).

(** The exact/fuzzy engine object with what was registered on it:
    [FuzzyMatcher(vocab, attr=term_attr, **fuzzy_kwargs)] or
    [PhraseMatcher(vocab, attr=term_attr)]. The engines are data here: the
    libraries are taken to accept what they are given (a constructor or a
    registration that the library refuses, such as a [fuzzy_kwargs] with a
    key "attr", raises in the program after [_prepare_attr] returned). *)
Inductive term_matcher :=
  | FuzzyMatcher (attr : string) (kwargs : gmap string kwval)
                 (patterns : gmap string (list (list string)))
  | PhraseMatcher (attr : string) (patterns : gmap string (list (list string))).

(** [RegexMatcher]: label to (patterns, attribute). *)
Abbreviation regex_matcher_state := (gmap string (list string * string)).

Definition _create_matcher (fuzzy : bool) (fuzzy_kwargs : option (gmap string kwval))
    (term_attr : string) : list warning * term_matcher :=
  if fuzzy then
    let kwargs :=
      match fuzzy_kwargs with
      | None => {["min_r2" := KwInt 90; "ignore_case" := KwBool true]}
      | Some kw => kw
      end in
    ([WarnFuzzySlow], FuzzyMatcher term_attr kwargs ∅)
  else ([], PhraseMatcher term_attr ∅).

(** What was registered on the exact/fuzzy engine, and the attribute it
    matches on. *)
Definition patterns (m : term_matcher) : gmap string (list (list string)) :=
  match m with
  | FuzzyMatcher _ _ p => p
  | PhraseMatcher _ p => p
  end.

Definition matcher_attr (m : term_matcher) : string :=
  match m with
  | FuzzyMatcher a _ _ => a
  | PhraseMatcher a _ => a
  end.

Definition is_fuzzy (m : term_matcher) : bool :=
  match m with
  | FuzzyMatcher _ _ _ => true
  | PhraseMatcher _ _ => false
  end.

(** Iterating a dictionary value: a list yields its strings, a bare string
    its characters (no bare string is left once [_to_dict_of_lists] ran). *)
Definition expressions (v : value) : list string :=
  match v with
  | VList l => l
  | VStr s => (λ c, String c EmptyString) <$> list_ascii_of_string s
  end.

(** [self.matcher.add(key, patterns)] for every item of [self.terms]. *)
Definition add_terms (nlp : Language) (terms : pydict) (m : term_matcher) : term_matcher :=
  let pats : gmap string (list (list string)) :=
    (λ v, tokenizer nlp <$> expressions v) <$> terms in
  match m with
  | FuzzyMatcher a kw p => FuzzyMatcher a kw (pats ∪ p)
  | PhraseMatcher a p => PhraseMatcher a (pats ∪ p)
  end.

(** [self.regex_matcher.add(key, patterns, self.attr[key])] for every item
    of [self.regex]. *)
Definition add_regex (regex : pydict) (attr : gmap string string) : regex_matcher_state :=
  map_imap (λ k v, Some (expressions v, attr !!! k)) regex.

Record GenericMatcher := {
  on_ents_only : bool;
  terms : loc;
  regex : loc;
  fuzzy : bool;
  filter_matches : bool;
  attr : gmap string string;
  matcher : term_matcher;
  regex_matcher : regex_matcher_state;
}.

(** The arguments of [__init__] besides [nlp]. *)
Record config := {
  cfg_terms : option loc;
  cfg_attr : attr_spec;
  cfg_regex : option loc;
  cfg_fuzzy : bool;
  cfg_fuzzy_kwargs : option (gmap string kwval);
  cfg_filter_matches : bool;
  cfg_on_ents_only : bool;
}.

(** [__init__]: the heap after the call, the warnings logged, and either the
    exception raised or the constructed component. The exception is the one
    of [_prepare_attr]; once it has returned, the libraries are taken to
    accept the matcher arguments and the patterns. *)
Definition __init__ (nlp : Language) (c : config) (h : heap)
  : heap * list warning * (exn + GenericMatcher) :=
  let '(h, lt) := _to_dict_of_lists (cfg_terms c) h in
  let '(h, lr) := _to_dict_of_lists (cfg_regex c) h in
  match _prepare_attr (cfg_attr c) (h !!! lr) (pipe_names nlp) with
  | (w, inl e) => (h, w, inl e)
  | (w, inr a) =>
      let '(w', m) := _create_matcher (cfg_fuzzy c) (cfg_fuzzy_kwargs c) (a !!! TERM_ATTR) in
      (h, w ++ w',
       inr {| on_ents_only := cfg_on_ents_only c;
              terms := lt;
              regex := lr;
              fuzzy := cfg_fuzzy c;
              filter_matches := cfg_filter_matches c;
              attr := a;
              matcher := add_terms nlp (h !!! lt) m;
              regex_matcher := add_regex (h !!! lr) a |})
  end.

(** ** Documents, spans and matches *)

(** A label as the engines report it: the exact engine gives a hash that
    [nlp.vocab.strings] resolves, the fuzzy engine gives the string. *)
Inductive match_id :=
  | IdHash (n : N)
  | IdStr (s : string).

#[global] Instance match_id_eq_dec : EqDecision match_id.
Proof. solve_decision. Defined.

(** [Span(doc, start, end, label)], a half-open token range of the document
    being processed. *)
Record Span := mkSpan {
  start : Z;
  end_ : Z;
  label : match_id;
}.

#[global] Instance Span_eq_dec : EqDecision Span.
Proof. solve_decision. Defined.

(** The document: its tokens and its mutable entity list [doc.ents]. *)
Record Doc := mkDoc {
  tokens : list string;
  ents : list Span;
}.

(** What an engine is called on: the whole [doc] or one sentence. *)
Inductive Scope :=
  | WholeDoc
  | Sentence (s : Span).

(** [match[:3]] of a raw exact/fuzzy match. *)
Abbreviation raw_match := (match_id * Z * Z)%type.

(** ** Iterating a Python [set]

    [set(xs)] keeps one copy of each distinct element and is enumerated in
    hash-table order; the language promises no more than this interface. *)
Class SetOrder := {
  set_iter : list Span → list Span;
  set_iter_NoDup : ∀ l, NoDup (set_iter l);
  set_iter_elem : ∀ l x, x ∈ set_iter l ↔ x ∈ l;
}.

(** ** The overlap filter *)

Definition span_length (s : Span) : Z := end_ s - start s.

(** The ranges [start a, end a) and [start b, end b) have a token in common. *)
Definition shares_token (a b : Span) : bool :=
  Z.max (start a) (start b) <? Z.min (end_ a) (end_ b).

Fixpoint insert_by {A} (before : A → A → bool) (x : A) (l : list A) : list A :=
  match l with
  | [] => [x]
  | y :: l' => if before x y then x :: y :: l' else y :: insert_by before x l'
  end.

(** A stable sort: an element goes in front of the first one it may precede,
    so elements that tie stay in input order. *)
Definition stable_sort {A} (before : A → A → bool) (l : list A) : list A :=
  foldr (insert_by before) [] l.

Definition starts_no_later (a b : Span) : bool := start a <=? start b.

(** [spacy.util.filter_spans], the library function generic.py imports and
    calls; its body is not part of the repository. As the library has it:

      get_sort_key = lambda span: (span.end - span.start, -span.start)
      sorted_spans = sorted(spans, key=get_sort_key, reverse=True)
      result = []; seen_tokens = set()
      for span in sorted_spans:
          if span.start not in seen_tokens and span.end - 1 not in seen_tokens:
              result.append(span)
              seen_tokens.update(range(span.start, span.end))
      return sorted(result, key=lambda span: span.start)

    Longest first, the leftmost first among equally long spans; spans that
    tie on both stay in input order (Python's sort is stable, also with
    [reverse=True]). *)
Definition sort_key (s : Span) : Z * Z := (end_ s - start s, - start s).

(** Tuples compare lexicographically. *)
Definition key_le (k1 k2 : Z * Z) : bool :=
  (k1.1 <? k2.1) || ((k1.1 =? k2.1) && (k1.2 <=? k2.2)).

(** With [reverse=True], [a] may stand in front of [b] when its key is not
    the smaller one. *)
Definition sorts_before (a b : Span) : bool := key_le (sort_key b) (sort_key a).

(** [range(span.start, span.end)] as a set of token indices. *)
Definition cover (s : Span) : gset Z :=
  list_to_set (seqZ (start s) (end_ s - start s)).

(** One iteration of the loop, on ([result], [seen_tokens]). *)
Definition keep_step (acc : list Span * gset Z) (s : Span) : list Span * gset Z :=
  if bool_decide (start s ∉ acc.2) && bool_decide (end_ s - 1 ∉ acc.2)
  then (acc.1 ++ [s], acc.2 ∪ cover s)
  else acc.

Definition filter_spans (spans : list Span) : list Span :=
  stable_sort starts_no_later
    (foldl keep_step ([], ∅) (stable_sort sorts_before spans)).1.

(** [seen_tokens] holds the tokens of the spans kept so far. *)
Definition seen_ok (acc : list Span * gset Z) : Prop :=
  ∀ k, k ∈ acc.2 ↔ ∃ a, a ∈ acc.1 ∧ start a ≤ k < end_ a.

(** [c] is considered before [a] whatever their places in the input: it is
    longer, or as long and starts further left. *)
Definition ahead (c a : Span) : Prop :=
  span_length a < span_length c ∨ (span_length c = span_length a ∧ start c < start a).

(** No token index lies in two spans at different positions of [l]. *)
Definition pairwise_non_overlapping (l : list Span) : Prop :=
  ∀ i j a b, i ≠ j → l !! i = Some a → l !! j = Some b →
    ¬ ∃ k, (start a ≤ k < end_ a) ∧ (start b ≤ k < end_ b).

Definition apart (a b : Span) : Prop := shares_token a b = false.

(** ** Per-document processing

    A call runs against the document object and the engines; the state is
    the document and the log of engine scans made so far. *)

Inductive event :=
  | ScanTerms (sc : Scope)
  | ScanRegex (sc : Scope).

Record pstate := mkState {
  st_doc : Doc;
  st_trace : list event;
}.

Definition P (A : Type) : Type := pstate → pstate * (exn + A).

#[global] Instance P_ret : MRet P := λ A a st, (st, inr a).
#[global] Instance P_bind : MBind P := λ A B f m st,
  match m st with
  | (st', inl e) => (st', inl e)
  | (st', inr a) => f a st'
  end.

Definition get_doc : P Doc := λ st, (st, inr (st_doc st)).

(** Assigning [doc.ents] goes through the library's setter. It first walks
    the spans in the order given, token by token, and raises at the first
    token that an earlier span already holds; nothing has been written
    then. *)
Definition clash_in (seen : gset Z) (s : Span) : option Z :=
  head (filter (λ i, i ∈ seen) (seqZ (start s) (end_ s - start s))).

Fixpoint first_clash (seen : gset Z) (spans : list Span) : option Z :=
  match spans with
  | [] => None
  | s :: rest =>
      match clash_in seen s with
      | Some i => Some i
      | None => first_clash (seen ∪ cover s) rest
      end
  end.

(** Otherwise the entities are written on the tokens, and [doc.ents] reads
    them back in document order; a span without a token leaves none.
    (Labels are taken to be non-empty, as the keys of [terms] and [regex]
    are meant to be.) *)
Definition stored (spans : list Span) : list Span :=
  stable_sort starts_no_later (filter (λ s, start s < end_ s) spans).

(** [doc.ents = spans] *)
Definition set_ents (spans : list Span) : P () := λ st,
  match first_clash ∅ spans with
  | Some i => (st, inl (EntsOverlap i))
  | None =>
      (mkState (mkDoc (tokens (st_doc st)) (stored spans)) (st_trace st), inr ())
  end.

Definition log_event (e : event) : P () := λ st,
  (mkState (st_doc st) (st_trace st ++ [e]), inr ()).

Definition lift {A} (r : exn + A) : P A := λ st, (st, r).

(** A [for] loop threading the variables it assigns. *)
Fixpoint for_each {A S} (l : list A) (body : A → S → P S) (acc : S) : P S :=
  match l with
  | [] => mret acc
  | x :: l' => acc' ← body x acc; for_each l' body acc'
  end.

(** A computation that leaves the document object as it found it. *)
Definition frames_doc {A} (m : P A) : Prop :=
  ∀ st, st_doc (m st).1 = st_doc st.

Section process.
Context `{SetOrder}.
(** [ent.sent] *)
Variable sent : Doc → Span → Span.
(** [self.matcher(doclike)] and [self.regex_matcher(doclike, as_spans=True)] *)
Variable scan_terms : term_matcher → Doc → Scope → exn + list raw_match.
Variable scan_regex : regex_matcher_state → Doc → Scope → exn + list Span.
(** [self.nlp.vocab.strings[match_id]] *)
Variable vocab_strings : match_id → match_id.

Definition call_matcher (self : GenericMatcher) (sc : Scope) : P (list raw_match) :=
  doc ← get_doc;
  log_event (ScanTerms sc);;
  lift (scan_terms (matcher self) doc sc).

Definition call_regex_matcher (self : GenericMatcher) (sc : Scope) : P (list Span) :=
  doc ← get_doc;
  log_event (ScanRegex sc);;
  lift (scan_regex (regex_matcher self) doc sc).

(** The body of [for match in matches]. *)
Definition to_span (self : GenericMatcher) (m : raw_match) : Span :=
  let '(match_id, start, end_) := m in
  let match_id := if fuzzy self then match_id else vocab_strings match_id in
  mkSpan start end_ match_id.

(** The scopes a call scans, in scanning order: the sentences of the
    entities as the set enumerates them, or the document. *)
Definition scopes (self : GenericMatcher) (doc : Doc) : list Scope :=
  if on_ents_only self then Sentence <$> set_iter (sent doc <$> ents doc)
  else [WholeDoc].

(** The two engine calls made on one scope. *)
Definition scans (sc : Scope) : list event := [ScanTerms sc; ScanRegex sc].

Definition scan_sentence (self : GenericMatcher) (s : Span)
    (acc : list raw_match * list Span) : P (list raw_match * list Span) :=
  ms ← call_matcher self (Sentence s);
  rs ← call_regex_matcher self (Sentence s);
  mret (acc.1 ++ ms, acc.2 ++ rs).

Definition process (self : GenericMatcher) : P (list Span) :=
  doc ← get_doc;
  found ←
    (if on_ents_only self then
       for_each (set_iter (sent doc <$> ents doc)) (scan_sentence self) ([], [])
     else
       ms ← call_matcher self WholeDoc;
       rs ← call_regex_matcher self WholeDoc;
       mret (ms, rs));
  let spans := to_span self <$> found.1 in
  let spans := spans ++ found.2 in
  mret (if filter_matches self then filter_spans spans else spans).

Definition __call__ (self : GenericMatcher) : P Doc :=
  spans ← process self;
  set_ents spans;;
  get_doc.
End process.

(** ** Sample configurations, documents and engines *)

Definition words (s : string) : list string := [s].

Definition nlp0 : Language := {| pipe_names := ["normaliser"]; tokenizer := words |}.

Definition cfg0 (a : attr_spec) (t r : option loc) : config :=
  {| cfg_terms := t; cfg_attr := a; cfg_regex := r; cfg_fuzzy := false;
     cfg_fuzzy_kwargs := None; cfg_filter_matches := true;
     cfg_on_ents_only := false |}.

Definition heap1 : heap := {[ 1%positive := {["dose" := VStr "\d+mg"]} ]}.

Definition regex1 : pydict := {["dose" := VList ["\d+mg"]; "unit" := VList ["mg|g"]]}.

(** The order of first occurrence: the order in which iterating the list
    discovers its distinct elements. *)
Fixpoint first_seen (seen l : list Span) : list Span :=
  match l with
  | [] => []
  | x :: l' =>
      if decide (x ∈ seen) then first_seen seen l' else x :: first_seen (x :: seen) l'
  end.

Definition discovery_order (l : list Span) : list Span := first_seen [] l.

(** A set that enumerates its elements last-inserted first. *)
Definition newest_first : SetOrder.
Proof.
  refine {| set_iter l := reverse (remove_dups l) |}.
  - intros l. rewrite reverse_Permutation. apply NoDup_remove_dups.
  - intros l x. by rewrite elem_of_reverse, elem_of_remove_dups.
Defined.

Definition sentA : Span := mkSpan 0 3 (IdStr "").
Definition sentB : Span := mkSpan 3 6 (IdStr "").

(** Two sentences of three tokens, an entity in each. *)
Definition doc0 : Doc :=
  mkDoc ["Patient"; "takes"; "aspirin"; "Take"; "50mg"; "aspirin"]
        [mkSpan 0 1 (IdStr "person"); mkSpan 3 4 (IdStr "verb")].

Definition sent0 (doc : Doc) (e : Span) : Span :=
  if start e <? 3 then sentA else sentB.

Definition in_scope (sc : Scope) (s e : Z) : bool :=
  match sc with
  | WholeDoc => true
  | Sentence x => (start x <=? s) && (e <=? end_ x)
  end.

(** An exact engine that finds "aspirin" at tokens 2 and 5. *)
Definition scan_terms0 (m : term_matcher) (doc : Doc) (sc : Scope)
  : exn + list raw_match :=
  inr ((if in_scope sc 2 3 then [(IdHash 7, 2, 3)] else []) ++
       (if in_scope sc 5 6 then [(IdHash 7, 5, 6)] else [])).

(** A regex engine that finds "50mg aspirin" at tokens 4 and 5. *)
Definition scan_regex0 (m : regex_matcher_state) (doc : Doc) (sc : Scope)
  : exn + list Span :=
  inr (if in_scope sc 4 6 then [mkSpan 4 6 (IdStr "dose")] else []).

(** An engine that fails. *)
Definition scan_terms_fails (m : term_matcher) (doc : Doc) (sc : Scope)
  : exn + list raw_match := inl (EngineError "scan").

Definition vocab0 (id : match_id) : match_id :=
  match id with
  | IdHash 7 => IdStr "drug"
  | _ => id
  end.

Definition matcher0 (ents_only filter : bool) : GenericMatcher :=
  {| on_ents_only := ents_only; terms := 1%positive; regex := 2%positive;
     fuzzy := false; filter_matches := filter;
     attr := {["dose" := "TEXT"; TERM_ATTR := "TEXT"]};
     matcher := PhraseMatcher "TEXT" {["drug" := [["aspirin"]]]};
     regex_matcher := {["dose" := (["\d+mg"], "TEXT")]} |}.

Definition st0 : pstate := mkState doc0 [].

(** * Properties *)

(** ** The definitions at work *)

Example prepare_scalar :
  _prepare_attr (AttrStr "text") {["dose" := VList ["\d+mg"]]} ["normaliser"]
  = ([], inr {["dose" := "TEXT"; TERM_ATTR := "TEXT"]}).
Proof. vm_compute. reflexivity. Qed.

Example init_example :
  let h : heap := {[ 1%positive := {["drug" := VStr "aspirin"]} ]} in
  let c := {| cfg_terms := Some 1%positive; cfg_attr := AttrStr "TEXT";
              cfg_regex := None; cfg_fuzzy := false; cfg_fuzzy_kwargs := None;
              cfg_filter_matches := true; cfg_on_ents_only := false |} in
  let nlp := {| pipe_names := []; tokenizer := words |} in
  (__init__ nlp c h).1.1 !! 1%positive = Some ({["drug" := VList ["aspirin"]]} : pydict).
Proof. vm_compute. reflexivity. Qed.

Example filter_longest_wins :
  filter_spans [mkSpan 1 3 (IdStr "b"); mkSpan 0 3 (IdStr "a")] = [mkSpan 0 3 (IdStr "a")].
Proof. reflexivity. Qed.

(** ** Attribute resolution *)

Lemma upper_ascii_idemp c : upper_ascii (upper_ascii c) = upper_ascii c.
Proof. destruct c as [[] [] [] [] [] [] [] []]; reflexivity. Qed.

Lemma upper_idemp s : upper (upper s) = upper s.
Proof. induction s as [|c s IH]; simpl; [done|]. by rewrite upper_ascii_idemp, IH. Qed.

Lemma fill_defaults_lookup keys (a : gmap string string) k :
  fill_defaults keys a !! k =
    match a !! k with
    | Some v => Some v
    | None => if bool_decide (k ∈ keys) then Some DEFAULT_ATTR else None
    end.
Proof.
  unfold fill_defaults.
  pose (Q := λ (r : gmap string string) (X : gset string), r !! k =
    match a !! k with
    | Some v => Some v
    | None => if bool_decide (k ∈ X) then Some DEFAULT_ATTR else None
    end).
  change (Q (set_fold fill_default a keys) keys).
  apply set_fold_ind_L; unfold Q; clear Q.
  - destruct (a !! k); [done|]. by rewrite bool_decide_eq_false_2 by set_solver.
  - intros x X r Hx IH. unfold fill_default.
    destruct (r !! x) as [vx|] eqn:Hrx.
    + rewrite IH. destruct (a !! k) as [v|] eqn:Hak; [done|].
      destruct (decide (k = x)) as [->|Hne].
      * rewrite IH in Hrx. by rewrite bool_decide_eq_false_2 in Hrx.
      * destruct (decide (k ∈ X)).
        -- by rewrite !bool_decide_eq_true_2 by set_solver.
        -- assert (k ∉ {[x]} ∪ X) by (rewrite elem_of_union, elem_of_singleton; tauto).
           by rewrite !bool_decide_eq_false_2.
    + destruct (decide (k = x)) as [->|Hne].
      * rewrite lookup_insert_eq. rewrite IH in Hrx.
        destruct (a !! x); [done|]. by rewrite bool_decide_eq_true_2 by set_solver.
      * rewrite lookup_insert_ne by done. rewrite IH.
        destruct (a !! k); [done|].
        destruct (decide (k ∈ X)).
        -- by rewrite !bool_decide_eq_true_2 by set_solver.
        -- assert (k ∉ {[x]} ∪ X) by (rewrite elem_of_union, elem_of_singleton; tauto).
           by rewrite !bool_decide_eq_false_2.
Qed.

(** What the mapping branch resolves a key to, whenever it returns. *)
Lemma prepare_dict_lookup m regex pipes w out k :
  _prepare_attr (AttrDict m) regex pipes = (w, inr out) →
  out !! k =
    match m !! k with
    | Some v => Some (upper v)
    | None =>
        if bool_decide (k ∈ dom regex ∪ {[TERM_ATTR]}) then Some DEFAULT_ATTR else None
    end.
Proof.
  unfold _prepare_attr. intros Heq.
  destruct (decide (_ = ∅)) in Heq; [|done].
  injection Heq as _ <-.
  rewrite fill_defaults_lookup, lookup_fmap.
  by destruct (m !! k).
Qed.

(** The validation of the mapping branch looks at the regex labels only. *)
Lemma prepare_dict_raises m regex pipes k :
  k ∈ dom regex →
  fill_defaults (dom regex ∪ {[TERM_ATTR]}) (upper <$> m) !!! k ∉ supported →
  ∃ w vals, _prepare_attr (AttrDict m) regex pipes = (w, inl (ValueError vals)).
Proof.
  intros Hk Hbad. unfold _prepare_attr.
  destruct (decide (_ = ∅)) as [He|]; [|eauto].
  exfalso.
  assert (fill_defaults (dom regex ∪ {[TERM_ATTR]}) (upper <$> m) !!! k ∈
    (∅ : gset string)) as Hin; [|set_solver].
  rewrite <- He. apply elem_of_difference. split; [|done].
  apply elem_of_map. eauto.
Qed.

(** ** Normalising the caller's dictionaries *)

Lemma as_list_idemp v : as_list (as_list v) = as_list v.
Proof. by destruct v. Qed.

Lemma listify_items_lookup (items : list (string * value)) (acc : pydict) k :
  NoDup items.*1 →
  foldl listify_item acc items !! k =
    match (list_to_map items : pydict) !! k with
    | Some (VStr s) => Some (VList [s])
    | _ => acc !! k
    end.
Proof.
  revert acc. induction items as [|[k0 v0] items IH]; intros acc Hnd.
  - simpl. by rewrite lookup_empty.
  - apply NoDup_cons in Hnd as [Hk0 Hnd]. simpl.
    rewrite IH by done.
    destruct (decide (k = k0)) as [->|Hne].
    + rewrite lookup_insert_eq.
      rewrite (not_elem_of_list_to_map_1 (M := gmap string) items k0 Hk0).
      unfold listify_item; simpl. destruct v0; [by rewrite lookup_insert_eq|done].
    + rewrite lookup_insert_ne by done.
      destruct (list_to_map items !! k) as [[]|]; try done;
        unfold listify_item; simpl; destruct v0; try done;
        by rewrite lookup_insert_ne.
Qed.

Lemma listify_fmap (d : pydict) : listify d = as_list <$> d.
Proof.
  apply map_eq. intros k. unfold listify.
  rewrite listify_items_lookup by apply NoDup_fst_map_to_list.
  rewrite list_to_map_to_list, lookup_fmap.
  by destruct (d !! k) as [[]|].
Qed.

Lemma alloc_dict_fresh (h : heap) : (alloc_dict h).2 ∉ dom h.
Proof. apply is_fresh. Qed.

(** The reference [_to_dict_of_lists] returns. *)
Lemma to_dict_ref d (h : heap) :
  (_to_dict_of_lists d h).2 =
    match d with
    | Some l => if decide (h !!! l = (∅ : pydict)) then fresh (dom h) else l
    | None => fresh (dom h)
    end.
Proof.
  unfold _to_dict_of_lists, or_dict, alloc_dict.
  destruct d as [l|]; [|done]. by destruct (decide _).
Qed.

(** The object found at [l0] afterwards: normalised when it is the argument,
    untouched otherwise. *)
Lemma to_dict_lookup d (h : heap) l0 (d0 : pydict) :
  h !! l0 = Some d0 →
  (_to_dict_of_lists d h).1 !! l0 =
    Some (if decide (d = Some l0) then as_list <$> d0 else d0).
Proof.
  intros Hl0.
  assert (fresh (dom h) ≠ l0) as Hfr.
  { intros <-. apply (is_fresh (dom h)). apply elem_of_dom. eauto. }
  assert (d ≠ Some l0 ∨ d0 = ∅ →
    (let '(h1, l1) := alloc_dict h in (<[l1 := listify (h1 !!! l1)]> h1, l1)).1 !! l0
    = Some (if decide (d = Some l0) then as_list <$> d0 else d0)) as Halloc.
  { intros Hcase. unfold alloc_dict. simpl.
    rewrite !lookup_insert_ne by done. rewrite Hl0.
    destruct (decide (d = Some l0)); [|done].
    destruct Hcase as [ | -> ]; [done|]. by rewrite fmap_empty. }
  unfold _to_dict_of_lists, or_dict.
  destruct d as [l|].
  - destruct (decide (h !!! l = (∅ : pydict))) as [He|Hne].
    + apply Halloc.
      destruct (decide (l = l0)) as [->|]; [|left; congruence].
      right. rewrite (lookup_total_correct _ _ _ Hl0) in He. done.
    + simpl. destruct (decide (l = l0)) as [->|Hll].
      * rewrite lookup_insert_eq, (lookup_total_correct _ _ _ Hl0), listify_fmap.
        by rewrite decide_True.
      * rewrite lookup_insert_ne by done. rewrite Hl0.
        by rewrite decide_False by congruence.
  - apply Halloc. by left.
Qed.

(** A [None] argument becomes a new, empty dictionary. *)
Lemma to_dict_none (h : heap) :
  ((_to_dict_of_lists None h).2 ∉ dom h) ∧
  ((_to_dict_of_lists None h).1) !! ((_to_dict_of_lists None h).2) = Some (∅ : pydict).
Proof.
  unfold _to_dict_of_lists, or_dict, alloc_dict. simpl. split; [apply is_fresh|].
  rewrite lookup_insert_eq, lookup_total_insert_eq. done.
Qed.

Lemma to_dict_dom d (h : heap) l : l ∈ dom h → l ∈ dom (_to_dict_of_lists d h).1.
Proof.
  intros [d0 Hd0]%elem_of_dom. apply elem_of_dom.
  rewrite (to_dict_lookup d h l d0 Hd0). eauto.
Qed.

(** The heap and the references [__init__] ends with. *)
Lemma init_heap nlp c (h : heap) :
  (__init__ nlp c h).1.1 =
    (_to_dict_of_lists (cfg_regex c) (_to_dict_of_lists (cfg_terms c) h).1).1.
Proof.
  unfold __init__.
  destruct (_to_dict_of_lists (cfg_terms c) h) as [h1 lt]; simpl.
  destruct (_to_dict_of_lists (cfg_regex c) h1) as [h2 lr]; simpl.
  destruct (_prepare_attr _ _ _) as [w [e|a]]; [done|].
  by destruct (_create_matcher _ _ _).
Qed.

Lemma init_refs nlp c (h : heap) self :
  (__init__ nlp c h).2 = inr self →
  terms self = (_to_dict_of_lists (cfg_terms c) h).2 ∧
  regex self = (_to_dict_of_lists (cfg_regex c) (_to_dict_of_lists (cfg_terms c) h).1).2.
Proof.
  unfold __init__.
  destruct (_to_dict_of_lists (cfg_terms c) h) as [h1 lt]; simpl.
  destruct (_to_dict_of_lists (cfg_regex c) h1) as [h2 lr]; simpl.
  destruct (_prepare_attr _ _ _) as [w [e|a]]; [done|].
  destruct (_create_matcher _ _ _). simpl. by intros [= <-].
Qed.

(** ** Claims on construction *)

(** C1, as amended: when the attribute specification is a per-label mapping
    and the value it resolves some regex label to (uppercased, or the
    default when absent) is neither "NORM" nor "TEXT", [_prepare_attr]
    raises [ValueError] and [__init__] ends with that exception instead of
    a component. *)
Theorem C1_unsupported_regex_attr_raises nlp c (h : heap) m lr (d : pydict) k v :
  cfg_attr c = AttrDict m →
  cfg_regex c = Some lr →
  h !! lr = Some d →
  k ∈ dom d →
  m !! k = Some v →
  upper v ∉ supported →
  (∃ w vals, _prepare_attr (AttrDict m) (as_list <$> d) (pipe_names nlp)
             = (w, inl (ValueError vals))) ∧
  (∃ vals, (__init__ nlp c h).2 = inl (ValueError vals)).
Proof.
  intros Hattr Hregex Hlr Hk Hm Hbad.
  assert (∀ regex : pydict, dom regex = dom d →
    ∃ w vals, _prepare_attr (AttrDict m) regex (pipe_names nlp)
              = (w, inl (ValueError vals))) as Hraise.
  { intros regex Hdom. apply (prepare_dict_raises m regex _ k); [by rewrite Hdom|].
    rewrite lookup_total_alt, fill_defaults_lookup, lookup_fmap, Hm. done. }
  split; [apply Hraise, dom_fmap_L|].
  unfold __init__.
  destruct (_to_dict_of_lists (cfg_terms c) h) as [h1 lt] eqn:E1.
  destruct (_to_dict_of_lists (cfg_regex c) h1) as [h2 lr'] eqn:E2.
  assert (∃ d1 : pydict, h1 !! lr = Some d1 ∧ dom d1 = dom d) as (d1 & Hd1 & Hdom1).
  { pose proof (to_dict_lookup (cfg_terms c) h lr d Hlr) as Hl. rewrite E1 in Hl.
    eexists; split; [exact Hl|]. destruct (decide _); [apply dom_fmap_L|done]. }
  assert (d ≠ ∅) as Hne.
  { intros ->. by rewrite dom_empty_L in Hk. }
  assert (d1 ≠ ∅) as Hne1.
  { intros ->. rewrite dom_empty_L in Hdom1. apply Hne, dom_empty_iff_L. done. }
  assert (lr' = lr) as ->.
  { pose proof (to_dict_ref (cfg_regex c) h1) as Hr. rewrite E2, Hregex in Hr.
    simpl in Hr. rewrite (lookup_total_correct _ _ _ Hd1) in Hr.
    by rewrite decide_False in Hr. }
  pose proof (to_dict_lookup (cfg_regex c) h1 lr d1 Hd1) as Hl2.
  rewrite E2, Hregex in Hl2. simpl in Hl2. rewrite decide_True in Hl2 by done.
  rewrite Hattr, (lookup_total_correct _ _ _ Hl2).
  destruct (Hraise (as_list <$> d1)) as (w & vals & ->).
  { by rewrite dom_fmap_L. }
  simpl. eauto.
Qed.

Lemma C1_unsupported_regex_attr_raises_witness :
  (∃ w vals, _prepare_attr (AttrDict {["dose" := "lower"]})
               (as_list <$> ({["dose" := VStr "\d+mg"]} : pydict)) (pipe_names nlp0)
             = (w, inl (ValueError vals))) ∧
  (∃ vals, (__init__ nlp0 (cfg0 (AttrDict {["dose" := "lower"]}) None (Some 1%positive))
              heap1).2 = inl (ValueError vals)).
Proof.
  apply (C1_unsupported_regex_attr_raises nlp0
           (cfg0 (AttrDict {["dose" := "lower"]}) None (Some 1%positive))
           heap1 {["dose" := "lower"]} 1%positive {["dose" := VStr "\d+mg"]}
           "dose" "lower").
  - reflexivity.
  - reflexivity.
  - reflexivity.
  - vm_compute. reflexivity.
  - reflexivity.
  - vm_compute. intros Hin. discriminate Hin.
Defined.

(** The value of the reserved term key is not among the validated ones: a
    mapping that sets it to "lower" is resolved and the component is built
    with the term attribute "LOWER". *)
Lemma C1_term_attr_not_validated :
  ("LOWER" ∉ supported) ∧
  _prepare_attr (AttrDict {[TERM_ATTR := "lower"]}) ∅ (pipe_names nlp0)
    = ([], inr {[TERM_ATTR := "LOWER"]}) ∧
  ∃ self, (__init__ nlp0 (cfg0 (AttrDict {[TERM_ATTR := "lower"]}) None None) ∅).2
          = inr self ∧
          attr self !! TERM_ATTR = Some "LOWER" ∧
          matcher self = PhraseMatcher "LOWER" ∅.
Proof.
  split; [vm_compute; discriminate|].
  split; [vm_compute; reflexivity|].
  eexists. split; [vm_compute; reflexivity|].
  split; vm_compute; reflexivity.
Qed.

(** C7: in the mapping branch, a regex label or the reserved term key that
    the mapping does not mention is resolved to [DEFAULT_ATTR], which is
    "NORM". *)
Theorem C7_absent_keys_get_default m (regex : pydict) pipes w out k :
  _prepare_attr (AttrDict m) regex pipes = (w, inr out) →
  k ∈ dom regex ∪ {[TERM_ATTR]} →
  m !! k = None →
  out !! k = Some DEFAULT_ATTR ∧ DEFAULT_ATTR = "NORM".
Proof.
  intros Hout Hk Hm. split; [|done].
  rewrite (prepare_dict_lookup _ _ _ _ _ k Hout), Hm.
  by rewrite bool_decide_eq_true_2.
Qed.

Lemma C7_absent_keys_get_default_witness :
  ({["dose" := "TEXT"; "unit" := "NORM"; TERM_ATTR := "NORM"]} : gmap string string)
    !! TERM_ATTR = Some DEFAULT_ATTR ∧ DEFAULT_ATTR = "NORM".
Proof.
  apply (C7_absent_keys_get_default {["dose" := "text"]} regex1 ["normaliser"] []).
  - vm_compute. reflexivity.
  - vm_compute. reflexivity.
  - reflexivity.
Defined.

(** C8, as amended: the values of a per-label mapping are uppercased before
    the defaults are filled in, the unknown keys are looked for and the
    values are validated, so a mapping and the same mapping with uppercased
    values are resolved alike; the keys are taken as they are written, each
    key of the mapping keeping its own uppercased value in the result. *)
Theorem C8_values_uppercased_keys_verbatim m (regex : pydict) pipes :
  _prepare_attr (AttrDict (upper <$> m)) regex pipes
    = _prepare_attr (AttrDict m) regex pipes ∧
  (∀ w out k v,
     _prepare_attr (AttrDict m) regex pipes = (w, inr out) →
     m !! k = Some v →
     out !! k = Some (upper v)).
Proof.
  split.
  - unfold _prepare_attr. rewrite <- map_fmap_compose.
    assert (upper ∘ upper <$> m = upper <$> m) as ->; [|done].
    apply map_fmap_ext. intros ? ? _. apply upper_idemp.
  - intros w out k v Hout Hm.
    by rewrite (prepare_dict_lookup _ _ _ _ _ k Hout), Hm.
Qed.

Lemma C8_values_uppercased_keys_verbatim_witness :
  ({["dose" := "TEXT"; "unit" := "NORM"; TERM_ATTR := "NORM"]} : gmap string string)
    !! "dose" = Some (upper "text").
Proof.
  apply (proj2 (C8_values_uppercased_keys_verbatim {["dose" := "text"]} regex1
                  ["normaliser"]) [] _ "dose" "text").
  - vm_compute. reflexivity.
  - reflexivity.
Defined.

(** A key is not uppercased: "dose" configures the regex label "dose",
    while "DOSE" is an unknown key and leaves that label at the default. *)
Lemma C8_keys_are_case_sensitive :
  _prepare_attr (AttrDict {["dose" := "text"]}) {["dose" := VList ["\d+mg"]]} ["normaliser"]
    = ([], inr {["dose" := "TEXT"; TERM_ATTR := "NORM"]}) ∧
  _prepare_attr (AttrDict {["DOSE" := "text"]}) {["dose" := VList ["\d+mg"]]} ["normaliser"]
    = ([WarnIgnoredKeys {["DOSE"]}],
       inr {["DOSE" := "TEXT"; "dose" := "NORM"; TERM_ATTR := "NORM"]}) ∧
  _prepare_attr (AttrDict {["dose" := "text"]}) {["dose" := VList ["\d+mg"]]} ["normaliser"]
    ≠ _prepare_attr (AttrDict {["DOSE" := "text"]}) {["dose" := VList ["\d+mg"]]}
        ["normaliser"].
Proof.
  split; [vm_compute; reflexivity|].
  split; [vm_compute; reflexivity|].
  vm_compute. discriminate.
Qed.

(** C10: [__init__] assigns into the dictionaries it is given. Whatever
    object [l] the caller passed as [terms] or [regex], it holds afterwards
    the same keys with every bare string replaced by a one-element list (so
    it has changed as soon as it held a bare string), and the component
    keeps a reference to that very object when it is not empty; a [None]
    argument is replaced by a new empty dictionary. *)
Theorem C10_init_mutates_caller_dicts nlp c (h : heap) l (d : pydict) :
  cfg_terms c = Some l ∨ cfg_regex c = Some l →
  h !! l = Some d →
  (__init__ nlp c h).1.1 !! l = Some (as_list <$> d) ∧
  (∀ k s, d !! k = Some (VStr s) →
     (as_list <$> d) !! k = Some (VList [s]) ∧ (__init__ nlp c h).1.1 !! l ≠ h !! l) ∧
  (∀ self, (__init__ nlp c h).2 = inr self →
     (cfg_terms c = Some l → d ≠ ∅ → terms self = l) ∧
     (cfg_regex c = Some l → d ≠ ∅ → regex self = l) ∧
     (cfg_terms c = None →
        (terms self ∉ dom h) ∧ (__init__ nlp c h).1.1 !! terms self = Some ∅) ∧
     (cfg_regex c = None →
        (regex self ∉ dom h) ∧ (__init__ nlp c h).1.1 !! regex self = Some ∅)).
Proof.
  intros Hl Hd. rewrite init_heap.
  pose proof (to_dict_lookup (cfg_terms c) h l d Hd) as H1.
  set (d1 := if decide (cfg_terms c = Some l) then as_list <$> d else d) in H1.
  pose proof (to_dict_lookup (cfg_regex c) _ l d1 H1) as H2.
  assert ((if decide (cfg_regex c = Some l) then as_list <$> d1 else d1)
          = as_list <$> d) as Hd2.
  { unfold d1. destruct (decide (cfg_regex c = Some l)), (decide (cfg_terms c = Some l));
      try done; [|by destruct Hl].
    rewrite <- map_fmap_compose. apply map_fmap_ext. intros ? ? _. apply as_list_idemp. }
  rewrite Hd2 in H2. split; [done|]. split.
  - intros k s Hk. split; [by rewrite lookup_fmap, Hk|].
    rewrite H2, Hd. intros [= Heq].
    apply (f_equal (λ m : pydict, m !! k)) in Heq.
    rewrite lookup_fmap, Hk in Heq. done.
  - intros self [Ht Hr]%init_refs. rewrite Ht, Hr.
    split; [|split; [|split]].
    + intros Hc Hne. rewrite to_dict_ref, Hc, (lookup_total_correct _ _ _ Hd).
      by rewrite decide_False.
    + intros Hc Hne. rewrite to_dict_ref, Hc, (lookup_total_correct _ _ _ H1).
      rewrite decide_False; [done|]. unfold d1.
      destruct (decide _); [|done]. intros He. apply Hne.
      apply (fmap_empty_inv as_list). done.
    + intros Hc. rewrite Hc. destruct (to_dict_none h) as [Hfr He].
      split; [done|].
      rewrite (to_dict_lookup (cfg_regex c) _ _ ∅ He).
      f_equal.
      destruct (decide (cfg_regex c = Some (_to_dict_of_lists None h).2));
        [apply fmap_empty|done].
    + intros Hc. rewrite Hc.
      destruct (to_dict_none (_to_dict_of_lists (cfg_terms c) h).1) as [Hfr He].
      split; [|done]. intros Hin. apply Hfr. by apply to_dict_dom.
Qed.

Lemma C10_init_mutates_caller_dicts_witness :
  (__init__ nlp0 (cfg0 (AttrStr "TEXT") None (Some 1%positive)) heap1).1.1 !! 1%positive
    = Some (as_list <$> ({["dose" := VStr "\d+mg"]} : pydict)) ∧
  (as_list <$> ({["dose" := VStr "\d+mg"]} : pydict)) !! "dose" = Some (VList ["\d+mg"]) ∧
  (__init__ nlp0 (cfg0 (AttrStr "TEXT") None (Some 1%positive)) heap1).1.1 !! 1%positive
    ≠ heap1 !! 1%positive.
Proof.
  destruct (C10_init_mutates_caller_dicts nlp0
              (cfg0 (AttrStr "TEXT") None (Some 1%positive)) heap1 1%positive
              {["dose" := VStr "\d+mg"]}) as (Hobj & Hstr & _).
  - right. reflexivity.
  - reflexivity.
  - split; [exact Hobj|]. apply (Hstr "dose" "\d+mg"). reflexivity.
Defined.

(** ** The overlap filter *)

Lemma shares_token_spec a b :
  shares_token a b = true ↔
  ∃ k, (start a ≤ k < end_ a) ∧ (start b ≤ k < end_ b).
Proof.
  unfold shares_token. rewrite Z.ltb_lt. split.
  - intros Hlt. exists (Z.max (start a) (start b)). lia.
  - intros (k & ? & ?). lia.
Qed.

Lemma shares_token_comm a b : shares_token a b = shares_token b a.
Proof. unfold shares_token. by rewrite Z.max_comm, Z.min_comm. Qed.

Lemma apart_sym a b : apart a b → apart b a.
Proof. unfold apart. by rewrite shares_token_comm. Qed.

Section sorting.
Context {A : Type} (before : A → A → bool).

Lemma insert_by_perm x l : insert_by before x l ≡ₚ x :: l.
Proof.
  induction l as [|y l IH]; simpl; [done|].
  destruct (before x y); [done|]. rewrite IH. apply Permutation_swap.
Qed.

Lemma stable_sort_perm l : stable_sort before l ≡ₚ l.
Proof.
  induction l as [|x l IH]; simpl; [done|].
  rewrite insert_by_perm. by rewrite IH.
Qed.

Lemma insert_by_app x s t :
  insert_by before x (s ++ t) =
    if existsb (before x) s then insert_by before x s ++ t
    else s ++ insert_by before x t.
Proof.
  induction s as [|y s IH]; simpl; [done|].
  destruct (before x y); simpl; [done|]. rewrite IH.
  by destruct (existsb (before x) s).
Qed.

(** Everything in front of a freshly inserted element refused to let it
    pass. *)
Lemma insert_by_split x l :
  ∃ s1 s2, insert_by before x l = s1 ++ x :: s2 ∧
           ∀ c, c ∈ s1 → before x c = false.
Proof.
  induction l as [|y l (s1 & s2 & Heq & Hs1)]; simpl.
  - exists [], []. split; [done|]. intros c Hc. by apply elem_of_nil in Hc.
  - destruct (before x y) eqn:Hxy.
    + exists [], (y :: l). split; [done|]. intros c Hc. by apply elem_of_nil in Hc.
    + exists (y :: s1), s2. rewrite Heq. split; [done|].
      intros c [->|Hc]%elem_of_cons; auto.
Qed.

(** Stability: elements that tie on a class [Q] (each may go in front of
    the other) come out in the order they came in. *)
Lemma insert_by_filter (Q : A → Prop) `{!∀ x, Decision (Q x)} x l :
  (∀ c, Q x → Q c → before x c = true) →
  filter Q (insert_by before x l) = filter Q (x :: l).
Proof.
  intros Htie. induction l as [|y l IH]; simpl; [done|].
  destruct (before x y) eqn:Hxy; [done|].
  rewrite (filter_cons _ y), IH, !(filter_cons _ x), (filter_cons _ y).
  destruct (decide (Q x)) as [Hx|Hx]; [|done].
  destruct (decide (Q y)) as [Hy|Hy]; [|done].
  rewrite (Htie y Hx Hy) in Hxy. done.
Qed.

Lemma stable_sort_stable (Q : A → Prop) `{!∀ x, Decision (Q x)} l :
  (∀ x c, Q x → Q c → before x c = true) →
  filter Q (stable_sort before l) = filter Q l.
Proof.
  intros Htie. induction l as [|x l IH]; simpl; [done|].
  rewrite insert_by_filter by auto.
  by rewrite !(filter_cons _ x), IH.
Qed.
End sorting.

Section ordered_pairs.
Context {A : Type} (R : A → A → Prop) (R_sym : ∀ a b, R a b → R b a).

Lemma ForallOrdPairs_perm l l' :
  l ≡ₚ l' → ForallOrdPairs R l → ForallOrdPairs R l'.
Proof using R_sym.
  induction 1 as [|x l l' Hp IH|x y l|l l' l'' _ IH1 _ IH2]; intros Hl.
  - done.
  - inversion Hl as [|? ? Hx Hrest]; subst. constructor; [|auto].
    by rewrite <- Hp.
  - inversion Hl as [|? ? Hy Hrest]; subst.
    inversion Hrest as [|? ? Hx Hrest']; subst.
    inversion Hy as [|? ? Hyx Hy']; subst.
    constructor; [constructor; auto|]. by constructor.
  - auto.
Qed.

Lemma ForallOrdPairs_snoc l x :
  ForallOrdPairs R l → Forall (λ a, R a x) l → ForallOrdPairs R (l ++ [x]).
Proof.
  induction 1 as [|a l Ha Hl IH]; intros Hx; simpl.
  - repeat constructor.
  - inversion Hx as [|? ? Hax Hx']; subst. constructor; [|auto].
    apply Forall_app. split; [done|]. by constructor.
Qed.

Lemma ForallOrdPairs_lookup l i j a b :
  ForallOrdPairs R l → (i < j)%nat → l !! i = Some a → l !! j = Some b → R a b.
Proof.
  intros Hl. revert i j. induction Hl as [|x l Hx Hl IH]; intros i j Hij Hi Hj.
  - done.
  - destruct j as [|j]; [lia|]. simpl in Hj. destruct i as [|i]; simpl in Hi.
    + injection Hi as ->. eapply Forall_forall in Hx; [exact Hx|].
      by eapply list_elem_of_lookup_2.
    + apply (IH i j); [lia|done..].
Qed.
End ordered_pairs.

Lemma sorts_before_spec a b :
  sorts_before a b = true ↔
  span_length b < span_length a ∨ (span_length b = span_length a ∧ start a ≤ start b).
Proof.
  unfold sorts_before, key_le, sort_key, span_length. simpl.
  rewrite orb_true_iff, andb_true_iff, Z.ltb_lt, Z.eqb_eq, Z.leb_le. lia.
Qed.

Lemma sorts_before_false a b :
  sorts_before a b = false ↔
  span_length a < span_length b ∨ (span_length a = span_length b ∧ start b < start a).
Proof.
  destruct (sorts_before a b) eqn:Hb.
  - apply sorts_before_spec in Hb. split; [done|]. lia.
  - split; [intros _|done].
    destruct (decide (span_length a < span_length b ∨
                      (span_length a = span_length b ∧ start b < start a))) as [|Hn];
      [done|].
    assert (sorts_before a b = true) as Ht; [|congruence].
    apply sorts_before_spec. lia.
Qed.

Lemma cover_spec s k : k ∈ cover s ↔ start s ≤ k < end_ s.
Proof. unfold cover. rewrite elem_of_list_to_set, elem_of_seqZ. lia. Qed.

(** The sorted list never grows in length. *)
Lemma insert_by_length_sorted x l :
  StronglySorted (λ a b, span_length b ≤ span_length a) l →
  StronglySorted (λ a b, span_length b ≤ span_length a) (insert_by sorts_before x l).
Proof.
  induction 1 as [|y l Hl IH Hy]; simpl.
  - repeat constructor.
  - destruct (sorts_before x y) eqn:Hxy.
    + apply sorts_before_spec in Hxy. constructor; [by constructor|].
      constructor; [lia|]. eapply Forall_impl; [exact Hy|]. simpl. intros; lia.
    + apply sorts_before_false in Hxy. constructor; [done|].
      rewrite insert_by_perm. constructor; [lia|done].
Qed.

Lemma stable_sort_length_sorted l :
  StronglySorted (λ a b, span_length b ≤ span_length a) (stable_sort sorts_before l).
Proof.
  induction l as [|x l IH]; simpl; [constructor|]. by apply insert_by_length_sorted.
Qed.

Lemma keep_step_seen_ok acc s : seen_ok acc → seen_ok (keep_step acc s).
Proof.
  intros Hok. unfold keep_step. destruct (_ && _); [|done].
  intros k. simpl. rewrite elem_of_union, cover_spec, (Hok k). split.
  - intros [(a & Ha & Hk)|Hk].
    + exists a. split; [apply elem_of_app; by left|done].
    + exists s. split; [apply elem_of_app; right; by apply list_elem_of_singleton|done].
  - intros (a & [Ha|Ha%list_elem_of_singleton]%elem_of_app & Hk); [left; eauto|].
    subst a. by right.
Qed.

Lemma keep_fold_seen_ok acc l : seen_ok acc → seen_ok (foldl keep_step acc l).
Proof.
  revert acc. induction l as [|s l IH]; intros acc Hok; simpl; [done|].
  by apply IH, keep_step_seen_ok.
Qed.

Lemma seen_ok_init : seen_ok ([], ∅).
Proof.
  intros k. simpl. split; [by intros ?%not_elem_of_empty|].
  by intros (a & ?%elem_of_nil & _).
Qed.

(** A span as long as [s] at least that holds neither end of [s] is apart
    from it. *)
Lemma ends_free_apart a s :
  span_length s ≤ span_length a →
  ¬ (start a ≤ start s < end_ a) →
  ¬ (start a ≤ end_ s - 1 < end_ a) →
  apart a s.
Proof.
  unfold apart, shares_token, span_length. intros ? ? ?. apply Z.ltb_ge. lia.
Qed.

Lemma keep_fold_apart acc l :
  seen_ok acc →
  ForallOrdPairs apart acc.1 →
  StronglySorted (λ a b, span_length b ≤ span_length a) l →
  (∀ a s, a ∈ acc.1 → s ∈ l → span_length s ≤ span_length a) →
  ForallOrdPairs apart (foldl keep_step acc l).1.
Proof.
  revert acc. induction l as [|s l IH]; intros acc Hok Hfop Hsorted Hlen; simpl; [done|].
  apply StronglySorted_inv in Hsorted as [Hsorted Hs].
  apply IH; [by apply keep_step_seen_ok| |done|].
  - unfold keep_step.
    destruct (bool_decide (start s ∉ acc.2)) eqn:H1; simpl; [|done].
    destruct (bool_decide (end_ s - 1 ∉ acc.2)) eqn:H2; simpl; [|done].
    apply bool_decide_eq_true in H1, H2.
    apply ForallOrdPairs_snoc; [done|]. apply Forall_forall. intros a Ha.
    apply ends_free_apart.
    + apply Hlen; [done|]. apply elem_of_cons. by left.
    + intros Hk. apply H1, Hok. eauto.
    + intros Hk. apply H2, Hok. eauto.
  - intros a s' Ha Hs'. unfold keep_step in Ha.
    assert (s' ∈ s :: l) as Hin by (apply elem_of_cons; by right).
    destruct (_ && _); simpl in Ha; [|by apply Hlen].
    apply elem_of_app in Ha as [Ha|Ha%list_elem_of_singleton]; [by apply Hlen|].
    subst a. eapply Forall_forall in Hs; [exact Hs|done].
Qed.

Lemma filter_spans_apart spans : ForallOrdPairs apart (filter_spans spans).
Proof.
  unfold filter_spans.
  eapply (ForallOrdPairs_perm _ apart_sym); [symmetry; apply stable_sort_perm|].
  apply keep_fold_apart.
  - apply seen_ok_init.
  - constructor.
  - apply stable_sort_length_sorted.
  - intros a s Ha. by apply elem_of_nil in Ha.
Qed.

Lemma filter_spans_non_overlapping spans :
  pairwise_non_overlapping (filter_spans spans).
Proof.
  intros i j a b Hij Hi Hj Hk. apply shares_token_spec in Hk.
  pose proof (filter_spans_apart spans) as Hfop.
  destruct (Nat.lt_total i j) as [Hlt|[->|Hlt]]; [|done|].
  - pose proof (ForallOrdPairs_lookup _ _ _ _ _ _ Hfop Hlt Hi Hj) as Hap.
    unfold apart in Hap. congruence.
  - pose proof (ForallOrdPairs_lookup _ _ _ _ _ _ Hfop Hlt Hj Hi) as Hap.
    apply apart_sym in Hap. unfold apart in Hap. congruence.
Qed.

(** In the sorted order, what stands in front of a candidate is ahead of it,
    or ties with it on length and start and was earlier in the input. *)
Lemma sort_split l1 a r :
  ∃ s1 s2, stable_sort sorts_before (l1 ++ a :: r) = s1 ++ a :: s2 ∧
    ∀ c, c ∈ s1 →
      ahead c a ∨ (span_length c = span_length a ∧ start c = start a ∧ c ∈ l1).
Proof.
  induction l1 as [|x l1 (s1 & s2 & Heq & Hs1)]; simpl.
  - destruct (insert_by_split sorts_before a (stable_sort sorts_before r))
      as (s1 & s2 & Heq & Hs1).
    exists s1, s2. split; [done|]. intros c Hc. left.
    specialize (Hs1 c Hc). apply sorts_before_false in Hs1. unfold ahead. lia.
  - assert (∀ c, c ∈ s1 →
      ahead c a ∨ (span_length c = span_length a ∧ start c = start a ∧ c ∈ x :: l1))
      as Hs1'.
    { intros c Hc. destruct (Hs1 c Hc) as [?|(? & ? & ?)]; [by left|].
      right. repeat split; [done..|]. apply elem_of_cons. by right. }
    assert (sorts_before x a = true →
      ahead x a ∨ (span_length x = span_length a ∧ start x = start a ∧ x ∈ x :: l1))
      as Hx.
    { intros Hxa%sorts_before_spec. unfold ahead.
      destruct (decide (span_length x = span_length a ∧ start x = start a));
        [|left; lia].
      right. repeat split; [tauto..|]. apply elem_of_cons. by left. }
    rewrite Heq, insert_by_app.
    destruct (existsb (sorts_before x) s1) eqn:Hex.
    + exists (insert_by sorts_before x s1), s2. split; [done|].
      intros c Hc. rewrite insert_by_perm in Hc.
      apply elem_of_cons in Hc as [->|Hc]; [|by apply Hs1'].
      apply Hx.
      apply existsb_exists in Hex as (c' & Hc'%list_elem_of_In & Hle).
      apply sorts_before_spec in Hle. apply sorts_before_spec.
      destruct (Hs1 c' Hc') as [Hah|(? & ? & _)]; unfold ahead in *; lia.
    + simpl. destruct (sorts_before x a) eqn:Hxa.
      * exists (s1 ++ [x]), s2. split; [by rewrite <- app_assoc|].
        intros c [Hc|Hc%list_elem_of_singleton]%elem_of_app; [by apply Hs1'|].
        subst c. by apply Hx.
      * exists s1, (insert_by sorts_before x s2). by split.
Qed.

Lemma keep_fold_subset acc l x :
  x ∈ (foldl keep_step acc l).1 → x ∈ acc.1 ∨ x ∈ l.
Proof.
  revert acc. induction l as [|s l IH]; intros acc Hx; simpl in Hx; [by left|].
  apply IH in Hx as [Hx|Hx].
  - unfold keep_step in Hx. destruct (_ && _); simpl in Hx; [|by left].
    apply elem_of_app in Hx as [Hx|Hx%list_elem_of_singleton]; [by left|].
    right. apply elem_of_cons. by left.
  - right. apply elem_of_cons. by right.
Qed.

Lemma keep_fold_mono acc l x : x ∈ acc.1 → x ∈ (foldl keep_step acc l).1.
Proof.
  revert acc. induction l as [|s l IH]; intros acc Hx; simpl; [done|].
  apply IH. unfold keep_step. destruct (_ && _); simpl; [|done].
  apply elem_of_app. by left.
Qed.

(** A non-empty candidate that shares no token with what was kept is kept. *)
Lemma keep_step_accepts acc s :
  seen_ok acc →
  start s < end_ s →
  (∀ a, a ∈ acc.1 → shares_token a s = false) →
  s ∈ (keep_step acc s).1.
Proof.
  intros Hok Hne Hfree. unfold keep_step.
  assert (∀ k, start s ≤ k < end_ s → k ∉ acc.2) as Hout.
  { intros k Hk [a [Ha Hka]]%Hok.
    assert (shares_token a s = true) as Hsh by (apply shares_token_spec; eauto).
    rewrite (Hfree a Ha) in Hsh. done. }
  rewrite !bool_decide_eq_true_2 by (apply Hout; lia). simpl.
  apply elem_of_app. right. by apply list_elem_of_singleton.
Qed.

Lemma filter_spans_keeps l1 a r :
  start a < end_ a →
  (∀ c, c ∈ l1 ++ a :: r →
     ahead c a ∨ (span_length c = span_length a ∧ start c = start a ∧ c ∈ l1) →
     shares_token c a = false) →
  a ∈ filter_spans (l1 ++ a :: r).
Proof.
  intros Hne Hclear. unfold filter_spans. rewrite stable_sort_perm.
  destruct (sort_split l1 a r) as (s1 & s2 & Heq & Hs1).
  rewrite Heq, foldl_app. simpl.
  apply keep_fold_mono, keep_step_accepts; [|done|].
  - apply keep_fold_seen_ok, seen_ok_init.
  - intros c Hc.
    apply keep_fold_subset in Hc as [Hc|Hc]; [by apply elem_of_nil in Hc|].
    apply Hclear; [|by apply Hs1].
    rewrite <- (stable_sort_perm sorts_before), Heq.
    apply elem_of_app. by left.
Qed.

Lemma filter_spans_excludes spans a b :
  a ∈ filter_spans spans → shares_token a b = true → b ≠ a →
  b ∉ filter_spans spans.
Proof.
  intros Ha Hab Hne Hb.
  destruct (ForallOrdPairs_In (filter_spans_apart spans) a b) as [?|[Hap|Hap]];
    [by apply list_elem_of_In..|congruence| |].
  - unfold apart in Hap. congruence.
  - apply apart_sym in Hap. unfold apart in Hap. congruence.
Qed.

(** ** Assigning the entities *)











(** ** Claims on the overlap filter *)

(** C2, as amended: the filter sorts the candidates longest first and, among
    equally long ones, leftmost first; the sort is stable, so only
    candidates with the same length and the same start keep their input
    order. Of two overlapping candidates of equal length, [a] that comes
    first in this order (it starts further left than [b], or at the same
    token and earlier in the input) is kept and [b] is rejected, provided
    [a] shares no token with a candidate considered before it (a longer
    one, one as long that starts further left, or one with its length and
    start placed earlier in the input). *)
Theorem C2_leftmost_of_equal_length_wins l1 a l2 b :
  b ∈ l1 ++ a :: l2 →
  span_length a = span_length b →
  shares_token a b = true →
  (∀ c, c ∈ l1 ++ a :: l2 →
     ahead c a ∨ (span_length c = span_length a ∧ start c = start a ∧ c ∈ l1) →
     shares_token c a = false) →
  (∀ k, filter (λ s, sort_key s = k) (stable_sort sorts_before (l1 ++ a :: l2))
        = filter (λ s, sort_key s = k) (l1 ++ a :: l2)) ∧
  (start a < start b ∨ (start a = start b ∧ b ∉ l1)) ∧
  a ∈ filter_spans (l1 ++ a :: l2) ∧
  (b ≠ a → b ∉ filter_spans (l1 ++ a :: l2)).
Proof.
  intros Hb Hlen Hab Hclear.
  assert (start a < end_ a) as Hne.
  { apply shares_token_spec in Hab as (k & ? & ?). lia. }
  split; [|split; [|split]].
  - intros k. apply stable_sort_stable. intros x c Hx Hc.
    apply sorts_before_spec. unfold sort_key, span_length in *.
    rewrite <- Hc in Hx. injection Hx as ? ?. lia.
  - destruct (decide (start a < start b)) as [|Hge]; [by left|]. right.
    assert (¬ ahead b a) as Hnah.
    { intros Hah. specialize (Hclear b Hb (or_introl Hah)).
      rewrite shares_token_comm in Hclear. congruence. }
    assert (start a = start b) as Heq by (unfold ahead in Hnah; lia).
    split; [done|]. intros Hin.
    assert (shares_token b a = false) as Hf; [|rewrite shares_token_comm in Hf; congruence].
    apply Hclear; [done|]. right. by repeat split.
  - by apply filter_spans_keeps.
  - intros Hneq. eapply filter_spans_excludes; [|done..].
    by apply filter_spans_keeps.
Qed.

Lemma C2_leftmost_of_equal_length_wins_witness :
  let a := mkSpan 0 2 (IdStr "drug") in
  let b := mkSpan 1 3 (IdStr "dose") in
  (start a < start b ∨ (start a = start b ∧ b ∉ [b])) ∧
  a ∈ filter_spans ([b] ++ a :: []) ∧
  (b ≠ a → b ∉ filter_spans ([b] ++ a :: [])).
Proof.
  intros a b.
  apply (C2_leftmost_of_equal_length_wins [b] a [] b).
  - apply elem_of_cons. by left.
  - reflexivity.
  - reflexivity.
  - intros c Hc Hfirst. apply Z.ltb_ge.
    apply elem_of_cons in Hc as [->|Hc].
    + destruct Hfirst as [[Hlt|[_ Hlt]]|(_ & Heq & _)]; vm_compute in *; congruence.
    + apply list_elem_of_singleton in Hc as ->.
      destruct Hfirst as [[Hlt|[_ Hlt]]|(_ & _ & Hin)]; [vm_compute in *; congruence..|].
      apply list_elem_of_singleton in Hin. discriminate Hin.
Defined.

(** The tie is not broken by input order: [a] = [1,3) stands before
    [b] = [0,2) in the input, both of length 2 and sharing token 1, and the
    filter keeps [b], the leftmost. *)
Lemma C2_leftmost_not_earliest :
  let a := mkSpan 1 3 (IdStr "drug") in
  let b := mkSpan 0 2 (IdStr "dose") in
  span_length a = span_length b ∧
  shares_token a b = true ∧
  filter_spans [a; b] = [b].
Proof. repeat split. Qed.

(** ** Per-document processing *)

Lemma frames_ret {A} (a : A) : frames_doc (mret a).
Proof. done. Qed.

Lemma frames_bind {A B} (m : P A) (f : A → P B) :
  frames_doc m → (∀ a, frames_doc (f a)) → frames_doc (m ≫= f).
Proof.
  intros Hm Hf st. unfold mbind, P_bind. specialize (Hm st).
  destruct (m st) as [st' [e|a]]; [done|]. simpl in Hm. by rewrite Hf.
Qed.

Lemma frames_get_doc : frames_doc get_doc.
Proof. done. Qed.

Lemma frames_log_event e : frames_doc (log_event e).
Proof. done. Qed.

Lemma frames_lift {A} (r : exn + A) : frames_doc (lift r).
Proof. done. Qed.

Lemma frames_for_each {A S} (l : list A) (body : A → S → P S) acc :
  (∀ x s, frames_doc (body x s)) → frames_doc (for_each l body acc).
Proof.
  intros Hbody. revert acc. induction l as [|x l IH]; intros acc; simpl.
  - apply frames_ret.
  - apply frames_bind; auto.
Qed.

Create HintDb frames.

#[local] Hint Resolve frames_ret frames_bind frames_get_doc frames_log_event
  frames_lift frames_for_each : frames.

Section process_props.
Context `{SetOrder}.
Variable sent : Doc → Span → Span.
Variable scan_terms : term_matcher → Doc → Scope → exn + list raw_match.
Variable scan_regex : regex_matcher_state → Doc → Scope → exn + list Span.
Variable vocab_strings : match_id → match_id.

Abbreviation process := (process sent scan_terms scan_regex vocab_strings).
Abbreviation __call__ := (__call__ sent scan_terms scan_regex vocab_strings).
Abbreviation to_span := (to_span vocab_strings).

Lemma frames_call_matcher self sc : frames_doc (call_matcher scan_terms self sc).
Proof. unfold call_matcher. auto 10 with frames. Qed.

Lemma frames_call_regex_matcher self sc :
  frames_doc (call_regex_matcher scan_regex self sc).
Proof. unfold call_regex_matcher. auto 10 with frames. Qed.

Lemma frames_process self : frames_doc (process self).
Proof.
  unfold process. apply frames_bind; [apply frames_get_doc|]. intros doc.
  apply frames_bind; [|intros; apply frames_ret].
  destruct (on_ents_only self).
  - apply frames_for_each. intros s acc. unfold scan_sentence.
    apply frames_bind; [apply frames_call_matcher|]. intros ms.
    apply frames_bind; [apply frames_call_regex_matcher|]. intros rs.
    apply frames_ret.
  - apply frames_bind; [apply frames_call_matcher|]. intros ms.
    apply frames_bind; [apply frames_call_regex_matcher|]. intros rs.
    apply frames_ret.
Qed.

(** Whatever [process] returns went through the filter when it is on. *)
Lemma process_returns self st st' out :
  process self st = (st', inr out) →
  ∃ cands, out = if filter_matches self then filter_spans cands else cands.
Proof.
  unfold process, mbind, P_bind, get_doc, mret, P_ret.
  match goal with
  | |- context [match ?m st with _ => _ end] => destruct (m st) as [st1 [e|found]]
  end; [done|].
  intros [= _ <-]. eauto.
Qed.

(** One sentence after the other, as long as the engines answer. *)
Lemma scan_sentences_ok self (l : list Span) tm rm acc st :
  (∀ s, s ∈ l → scan_terms (matcher self) (st_doc st) (Sentence s) = inr (tm s)) →
  (∀ s, s ∈ l → scan_regex (regex_matcher self) (st_doc st) (Sentence s) = inr (rm s)) →
  for_each l (scan_sentence scan_terms scan_regex self) acc st =
    (mkState (st_doc st) (st_trace st ++ (l ≫= λ s, scans (Sentence s))),
     inr (acc.1 ++ (l ≫= tm), acc.2 ++ (l ≫= rm))).
Proof.
  revert acc st. induction l as [|s l IH]; intros acc st Htm Hrm; simpl.
  - destruct st, acc. unfold mret, P_ret. simpl. by rewrite !app_nil_r.
  - unfold mbind at 1, P_bind at 1.
    unfold scan_sentence at 1, call_matcher, call_regex_matcher.
    unfold mbind, P_bind, get_doc, log_event, lift, mret, P_ret. simpl.
    rewrite Htm, Hrm by (apply elem_of_cons; by left). simpl.
    fold (@mbind P _) in *.
    rewrite IH; simpl.
    + by rewrite <- !app_assoc.
    + intros s' Hs'. apply Htm, elem_of_cons. by right.
    + intros s' Hs'. apply Hrm, elem_of_cons. by right.
Qed.
Lemma process_ents_ok self st tm rm :
  on_ents_only self = true →
  (∀ s, s ∈ set_iter (sent (st_doc st) <$> ents (st_doc st)) →
     scan_terms (matcher self) (st_doc st) (Sentence s) = inr (tm s)) →
  (∀ s, s ∈ set_iter (sent (st_doc st) <$> ents (st_doc st)) →
     scan_regex (regex_matcher self) (st_doc st) (Sentence s) = inr (rm s)) →
  process self st =
    (mkState (st_doc st)
       (st_trace st ++
          (set_iter (sent (st_doc st) <$> ents (st_doc st)) ≫= λ s, scans (Sentence s))),
     inr (let spans :=
            (to_span self <$> (set_iter (sent (st_doc st) <$> ents (st_doc st)) ≫= tm))
            ++ (set_iter (sent (st_doc st) <$> ents (st_doc st)) ≫= rm) in
          if filter_matches self then filter_spans spans else spans)).
Proof.
  intros Hon Htm Hrm. unfold process. rewrite Hon.
  unfold mbind at 1, P_bind at 1, get_doc at 1.
  unfold mbind at 1, P_bind at 1.
  rewrite (scan_sentences_ok self _ tm rm) by done.
  reflexivity.
Qed.

Lemma process_doc_ok self st ms rs :
  on_ents_only self = false →
  scan_terms (matcher self) (st_doc st) WholeDoc = inr ms →
  scan_regex (regex_matcher self) (st_doc st) WholeDoc = inr rs →
  process self st =
    (mkState (st_doc st) (st_trace st ++ scans WholeDoc),
     inr (let spans := (to_span self <$> ms) ++ rs in
          if filter_matches self then filter_spans spans else spans)).
Proof.
  intros Hon Htm Hrm. unfold process. rewrite Hon.
  unfold call_matcher, call_regex_matcher.
  unfold mbind, P_bind, get_doc, log_event, lift, mret, P_ret. simpl.
  rewrite Htm, Hrm. simpl. by rewrite <- app_assoc.
Qed.
End process_props.

(** ** Claims on processing *)

Lemma list_bind_fmap {A B C} (f : A → B) (g : B → list C) (l : list A) :
  (f <$> l) ≫= g = l ≫= (g ∘ f).
Proof. induction l as [|x l IH]; csimpl; [done|]. by rewrite IH. Qed.

Lemma set_iter_nil `{SetOrder} : set_iter [] = [].
Proof.
  destruct (set_iter []) as [|x l] eqn:Heq; [done|].
  assert (x ∈ set_iter []) as Hx by (rewrite Heq; apply elem_of_cons; by left).
  apply (proj1 (set_iter_elem [] x)) in Hx. by apply elem_of_nil in Hx.
Qed.

Section process_claims.
Context `{SetOrder}.
Variable sent : Doc → Span → Span.
Variable scan_terms : term_matcher → Doc → Scope → exn + list raw_match.
Variable scan_regex : regex_matcher_state → Doc → Scope → exn + list Span.
Variable vocab_strings : match_id → match_id.


(** C3, as amended: in entity-scoped mode the sentences scanned are the
    sentences [ent.sent] of the document's entities, each one once however
    many entities it holds; both engines are run on each of them, and the
    matches are accumulated in the order in which the set of sentences is
    enumerated, which need not be the order of the entities. *)
Theorem C3_entity_scoped_scan self st tm rm :
  on_ents_only self = true →
  (∀ s, s ∈ set_iter (sent (st_doc st) <$> ents (st_doc st)) →
     scan_terms (matcher self) (st_doc st) (Sentence s) = inr (tm s)) →
  (∀ s, s ∈ set_iter (sent (st_doc st) <$> ents (st_doc st)) →
     scan_regex (regex_matcher self) (st_doc st) (Sentence s) = inr (rm s)) →
  NoDup (set_iter (sent (st_doc st) <$> ents (st_doc st))) ∧
  (∀ s, s ∈ set_iter (sent (st_doc st) <$> ents (st_doc st)) ↔
        ∃ e, e ∈ ents (st_doc st) ∧ sent (st_doc st) e = s) ∧
  process sent scan_terms scan_regex vocab_strings self st =
    (mkState (st_doc st)
       (st_trace st ++
          (set_iter (sent (st_doc st) <$> ents (st_doc st)) ≫= λ s, scans (Sentence s))),
     inr (let spans :=
            (to_span vocab_strings self <$>
               (set_iter (sent (st_doc st) <$> ents (st_doc st)) ≫= tm))
            ++ (set_iter (sent (st_doc st) <$> ents (st_doc st)) ≫= rm) in
          if filter_matches self then filter_spans spans else spans)).
Proof.
  intros Hon Htm Hrm. split; [apply set_iter_NoDup|]. split.
  - intros s. rewrite set_iter_elem, list_elem_of_fmap.
    split; [intros (e & -> & He)|intros (e & He & <-)]; eauto.
  - by apply process_ents_ok.
Qed.

(** C4: with the filter on, no token index lies in two spans at different
    positions of the list [process] returns. *)
Theorem C4_filtered_output_non_overlapping self st st' out :
  filter_matches self = true →
  process sent scan_terms scan_regex vocab_strings self st = (st', inr out) →
  pairwise_non_overlapping out.
Proof.
  intros Hf [cands ->]%process_returns. rewrite Hf.
  apply filter_spans_non_overlapping.
Qed.

(** C5: with the filter off, [process] returns the spans made from the
    exact/fuzzy matches of the scanned scopes, scope after scope in scanning
    order and in the order the engine reported them, followed by the regex
    spans of the same scopes in the same order; nothing is dropped or moved. *)
Theorem C5_unfiltered_output_is_concatenation self st tm rm :
  filter_matches self = false →
  (∀ sc, sc ∈ scopes sent self (st_doc st) →
     scan_terms (matcher self) (st_doc st) sc = inr (tm sc)) →
  (∀ sc, sc ∈ scopes sent self (st_doc st) →
     scan_regex (regex_matcher self) (st_doc st) sc = inr (rm sc)) →
  process sent scan_terms scan_regex vocab_strings self st =
    (mkState (st_doc st) (st_trace st ++ (scopes sent self (st_doc st) ≫= scans)),
     inr ((to_span vocab_strings self <$> (scopes sent self (st_doc st) ≫= tm))
          ++ (scopes sent self (st_doc st) ≫= rm))).
Proof.
  intros Hf Htm Hrm. unfold scopes in *.
  destruct (on_ents_only self) eqn:Hon.
  - rewrite (process_ents_ok _ _ _ _ self st (tm ∘ Sentence) (rm ∘ Sentence) Hon).
    + rewrite Hf, !list_bind_fmap. done.
    + intros s Hs. apply Htm, list_elem_of_fmap. eauto.
    + intros s Hs. apply Hrm, list_elem_of_fmap. eauto.
  - rewrite (process_doc_ok _ _ _ _ self st (tm WholeDoc) (rm WholeDoc) Hon).
    + rewrite Hf. simpl. by rewrite !app_nil_r.
    + apply Htm, list_elem_of_singleton. done.
    + apply Hrm, list_elem_of_singleton. done.
Qed.

(** C6: in entity-scoped mode, a document without entities gives the empty
    list, and no engine is run at all. *)
Theorem C6_no_entities_no_spans self st :
  on_ents_only self = true →
  ents (st_doc st) = [] →
  process sent scan_terms scan_regex vocab_strings self st = (st, inr []).
Proof.
  intros Hon Hents.
  rewrite (process_ents_ok _ _ _ _ self st (λ _, []) (λ _, []) Hon).
  - rewrite Hents. simpl. rewrite set_iter_nil. simpl.
    destruct st. simpl. rewrite app_nil_r. by destruct (filter_matches self).
  - rewrite Hents. simpl. rewrite set_iter_nil. intros s Hs. by apply elem_of_nil in Hs.
  - rewrite Hents. simpl. rewrite set_iter_nil. intros s Hs. by apply elem_of_nil in Hs.
Qed.

End process_claims.


Example call_whole_doc :
  (__call__ (H := newest_first) sent0 scan_terms0 scan_regex0 vocab0
     (matcher0 false true) st0).2
  = inr (mkDoc (tokens doc0) [mkSpan 2 3 (IdStr "drug"); mkSpan 4 6 (IdStr "dose")]).
Proof. vm_compute. reflexivity. Qed.

Example call_engine_fails :
  __call__ (H := newest_first) sent0 scan_terms_fails scan_regex0 vocab0
    (matcher0 false true) st0
  = (mkState doc0 [ScanTerms WholeDoc], inl (EngineError "scan")).
Proof. vm_compute. reflexivity. Qed.

(** With a set that enumerates the two sentences newest first, the second
    sentence is scanned before the first and its span comes first, while the
    entities are discovered first sentence first. *)
Lemma C3_scan_order_is_set_order :
  discovery_order (sent0 doc0 <$> ents doc0) = [sentA; sentB] ∧
  process (H := newest_first) sent0 scan_terms0 scan_regex0 vocab0
    (matcher0 true false) st0
  = (mkState doc0 [ScanTerms (Sentence sentB); ScanRegex (Sentence sentB);
                   ScanTerms (Sentence sentA); ScanRegex (Sentence sentA)],
     inr [mkSpan 5 6 (IdStr "drug"); mkSpan 2 3 (IdStr "drug");
          mkSpan 4 6 (IdStr "dose")]).
Proof. split; vm_compute; reflexivity. Qed.

Lemma C3_entity_scoped_scan_witness :
  NoDup (set_iter (SetOrder := newest_first) (sent0 doc0 <$> ents doc0)) ∧
  process (H := newest_first) sent0 scan_terms0 scan_regex0 vocab0
    (matcher0 true true) st0
  = (mkState doc0 [ScanTerms (Sentence sentB); ScanRegex (Sentence sentB);
                   ScanTerms (Sentence sentA); ScanRegex (Sentence sentA)],
     inr [mkSpan 2 3 (IdStr "drug"); mkSpan 4 6 (IdStr "dose")]).
Proof.
  destruct (C3_entity_scoped_scan (H := newest_first) sent0 scan_terms0 scan_regex0
              vocab0 (matcher0 true true) st0
              (λ s, (if in_scope (Sentence s) 2 3 then [(IdHash 7, 2, 3)] else []) ++
                    (if in_scope (Sentence s) 5 6 then [(IdHash 7, 5, 6)] else []))
              (λ s, if in_scope (Sentence s) 4 6 then [mkSpan 4 6 (IdStr "dose")] else []))
    as (Hnd & _ & Hrun).
  - reflexivity.
  - intros s _. reflexivity.
  - intros s _. reflexivity.
  - split; [exact Hnd|]. rewrite Hrun. vm_compute. reflexivity.
Defined.

Lemma C4_filtered_output_non_overlapping_witness :
  pairwise_non_overlapping [mkSpan 2 3 (IdStr "drug"); mkSpan 4 6 (IdStr "dose")].
Proof.
  apply (C4_filtered_output_non_overlapping (H := newest_first) sent0 scan_terms0
           scan_regex0 vocab0 (matcher0 false true) st0
           (mkState doc0 [ScanTerms WholeDoc; ScanRegex WholeDoc])).
  - reflexivity.
  - vm_compute. reflexivity.
Defined.

Lemma C5_unfiltered_output_is_concatenation_witness :
  process (H := newest_first) sent0 scan_terms0 scan_regex0 vocab0
    (matcher0 true false) st0
  = (mkState doc0 [ScanTerms (Sentence sentB); ScanRegex (Sentence sentB);
                   ScanTerms (Sentence sentA); ScanRegex (Sentence sentA)],
     inr [mkSpan 5 6 (IdStr "drug"); mkSpan 2 3 (IdStr "drug");
          mkSpan 4 6 (IdStr "dose")]).
Proof.
  rewrite (C5_unfiltered_output_is_concatenation (H := newest_first) sent0 scan_terms0
             scan_regex0 vocab0 (matcher0 true false) st0
             (λ sc, (if in_scope sc 2 3 then [(IdHash 7, 2, 3)] else []) ++
                    (if in_scope sc 5 6 then [(IdHash 7, 5, 6)] else []))
             (λ sc, if in_scope sc 4 6 then [mkSpan 4 6 (IdStr "dose")] else [])).
  - vm_compute. reflexivity.
  - reflexivity.
  - intros sc _. reflexivity.
  - intros sc _. reflexivity.
Defined.

(** In entity-scoped mode the scopes are not taken in discovery order: the
    entities are discovered first sentence first, which would give the
    "aspirin" of the first sentence before that of the second, while a set
    that lists the sentences newest first gives them the other way round
    (filter off). *)
Lemma C5_scopes_not_in_discovery_order :
  (to_span vocab0 (matcher0 true false) <$>
     (discovery_order (sent0 doc0 <$> ents doc0) ≫= λ s,
        (if in_scope (Sentence s) 2 3 then [(IdHash 7, 2, 3)] else []) ++
        (if in_scope (Sentence s) 5 6 then [(IdHash 7, 5, 6)] else [])))
  ++ (discovery_order (sent0 doc0 <$> ents doc0) ≫= λ s,
        if in_scope (Sentence s) 4 6 then [mkSpan 4 6 (IdStr "dose")] else [])
  = [mkSpan 2 3 (IdStr "drug"); mkSpan 5 6 (IdStr "drug"); mkSpan 4 6 (IdStr "dose")] ∧
  (process (H := newest_first) sent0 scan_terms0 scan_regex0 vocab0
     (matcher0 true false) st0).2
  = inr [mkSpan 5 6 (IdStr "drug"); mkSpan 2 3 (IdStr "drug");
         mkSpan 4 6 (IdStr "dose")].
Proof. split; vm_compute; reflexivity. Qed.



Lemma C6_no_entities_no_spans_witness :
  process (H := newest_first) sent0 scan_terms0 scan_regex0 vocab0
    (matcher0 true true) (mkState (mkDoc (tokens doc0) []) [])
  = (mkState (mkDoc (tokens doc0) []) [], inr []).
Proof.
  apply (C6_no_entities_no_spans (H := newest_first) sent0 scan_terms0 scan_regex0
           vocab0 (matcher0 true true) (mkState (mkDoc (tokens doc0) []) [])).
  - reflexivity.
  - reflexivity.
Defined.

(** * Further properties *)

Set Warnings "-clear-no-such-hyp".

(** ** [_prepare_attr], beyond the claims *)

(** X1: a scalar [attr] is never validated and never warned about: the call
    returns, logs nothing, and the result gives the uppercased value to
    every regex label and to the reserved term key, and holds no other key. *)
Theorem prepare_scalar_broadcast s (regex : pydict) pipes :
  ∃ out, _prepare_attr (AttrStr s) regex pipes = ([], inr out) ∧
    ∀ k, out !! k =
      if bool_decide (k ∈ dom regex ∪ {[TERM_ATTR]}) then Some (upper s) else None.
Proof.
  eexists. split; [reflexivity|]. intros k. rewrite lookup_gset_to_gmap.
  case_bool_decide.
  - by rewrite option_guard_True.
  - by rewrite option_guard_False.
Qed.

Lemma fill_defaults_dom keys (a : gmap string string) :
  dom (fill_defaults keys a) = dom a ∪ keys.
Proof.
  apply set_eq. intros k.
  rewrite elem_of_union, !elem_of_dom, fill_defaults_lookup.
  destruct (a !! k) as [v|] eqn:Hk.
  - split; [intros _; left|]; eauto.
  - case_bool_decide as Hin.
    + split; [intros _; by right|]; eauto.
    + split; [by intros [? ?]|]. intros [[? ?]|?]; done.
Qed.

Lemma default_attr_supported : DEFAULT_ATTR ∈ supported.
Proof. unfold supported, DEFAULT_ATTR. set_solver. Qed.

(** What the mapping branch resolves a regex label or the term key to. *)
Lemma resolved_total m (regex : pydict) k :
  k ∈ dom regex ∪ {[TERM_ATTR]} →
  fill_defaults (dom regex ∪ {[TERM_ATTR]}) (upper <$> m) !!! k
    = match m !! k with Some v => upper v | None => DEFAULT_ATTR end.
Proof.
  intros Hk. rewrite lookup_total_alt, fill_defaults_lookup, lookup_fmap.
  destruct (m !! k); [done|]. by rewrite bool_decide_eq_true_2.
Qed.

(** X2: the mapping branch raises exactly when the mapping gives some regex
    label a value that is neither "NORM" nor "TEXT" once uppercased; the
    value of the term key and of keys that are no regex label never make it
    raise. *)
Theorem prepare_dict_raises_iff m (regex : pydict) pipes :
  (∃ w e, _prepare_attr (AttrDict m) regex pipes = (w, inl e)) ↔
  (∃ k v, k ∈ dom regex ∧ m !! k = Some v ∧ upper v ∉ supported).
Proof.
  split.
  - intros (w & e & Heq). unfold _prepare_attr in Heq.
    destruct (decide (_ = ∅)) as [|Hne] in Heq; [done|].
    apply set_choose_L in Hne as (x & [Hx Hbad]%elem_of_difference).
    apply elem_of_map in Hx as (k & -> & Hk).
    rewrite resolved_total in Hbad by set_solver.
    destruct (m !! k) as [v|] eqn:Hm; [by eauto|].
    by destruct Hbad, default_attr_supported.
  - intros (k & v & Hk & Hm & Hbad).
    destruct (prepare_dict_raises m regex pipes k Hk) as (w & vals & Heq); [|by eauto].
    rewrite resolved_total, Hm by set_solver. done.
Qed.

(** X3: the warning about ignored keys is logged, with exactly the keys of
    the mapping that are neither a regex label nor the term key, whenever
    there is such a key, also when the call goes on to raise. *)
Theorem ignored_keys_reported m (regex : pydict) pipes diff :
  WarnIgnoredKeys diff ∈ (_prepare_attr (AttrDict m) regex pipes).1 ↔
  diff = dom m ∖ dom regex ∖ {[TERM_ATTR]} ∧ diff ≠ ∅.
Proof.
  unfold _prepare_attr. rewrite fill_defaults_dom, dom_fmap_L.
  assert ((dom m ∪ (dom regex ∪ {[TERM_ATTR]})) ∖ dom regex ∖ {[TERM_ATTR]}
          = dom m ∖ dom regex ∖ {[TERM_ATTR]}) as -> by set_solver.
  set (D := dom m ∖ dom regex ∖ {[TERM_ATTR]}).
  assert (WarnIgnoredKeys diff ∈ (if decide (D = ∅) then [] else [WarnIgnoredKeys D])
          ↔ diff = D ∧ diff ≠ ∅) as Hw1.
  { destruct (decide (D = ∅)) as [He|Hne].
    - split; [by intros ?%elem_of_nil|]. intros [-> Hne]. by destruct Hne.
    - rewrite list_elem_of_singleton. split; [by intros [= ->]|by intros [-> _]]. }
  destruct (decide (_ ∖ supported = ∅)); simpl; [|done].
  rewrite elem_of_app, Hw1. split; [|by left].
  intros [?|Hw2]; [done|].
  destruct (_ && _); [by apply list_elem_of_singleton in Hw2|by apply elem_of_nil in Hw2].
Qed.

Lemma prepare_dict_keys m (regex : pydict) pipes w out :
  _prepare_attr (AttrDict m) regex pipes = (w, inr out) →
  dom out = dom m ∪ (dom regex ∪ {[TERM_ATTR]}).
Proof.
  unfold _prepare_attr. intros Heq.
  destruct (decide (_ = ∅)) in Heq; [|done]. injection Heq as _ <-.
  by rewrite fill_defaults_dom, dom_fmap_L.
Qed.

(** X4: when the mapping branch returns, the result has the keys of the
    mapping, the regex labels and the term key, and no other: ignored keys
    stay in it. *)
Theorem prepare_dict_dom m (regex : pydict) pipes w out :
  _prepare_attr (AttrDict m) regex pipes = (w, inr out) →
  dom out = dom m ∪ dom regex ∪ {[TERM_ATTR]}.
Proof.
  intros Heq. rewrite (prepare_dict_keys _ _ _ _ _ Heq). set_solver.
Qed.

Lemma prepare_dict_dom_witness :
  dom ({["DOSE" := "TEXT"; "dose" := "NORM"; TERM_ATTR := "NORM"]} : gmap string string)
  = dom ({["DOSE" := "text"]} : gmap string string)
    ∪ dom ({["dose" := VList ["\d+mg"]]} : pydict) ∪ {[TERM_ATTR]}.
Proof.
  apply (prepare_dict_dom {["DOSE" := "text"]} {["dose" := VList ["\d+mg"]]}
           ["normaliser"] [WarnIgnoredKeys {["DOSE"]}]).
  vm_compute. reflexivity.
Defined.

(** X5: when the mapping branch returns, the warning about the missing
    normaliser is logged exactly when no stage is called "normaliser" and
    some regex label or the term key is resolved to "NORM"; a "NORM" under
    an ignored key does not count. *)
Theorem normaliser_warning_iff m (regex : pydict) pipes w out :
  _prepare_attr (AttrDict m) regex pipes = (w, inr out) →
  WarnNoNormaliser ∈ w ↔
  ("normaliser" ∉ pipes) ∧
  ∃ k, k ∈ dom regex ∪ {[TERM_ATTR]} ∧ out !! k = Some "NORM".
Proof.
  unfold _prepare_attr. intros Heq.
  destruct (decide (_ ∖ supported = ∅)) in Heq; [|done].
  injection Heq as <- <-.
  set (a := fill_defaults (dom regex ∪ {[TERM_ATTR]}) (upper <$> m)).
  assert (∀ k, k ∈ dom regex ∪ {[TERM_ATTR]} → a !! k = Some (a !!! k)) as Htot.
  { intros k Hk. rewrite lookup_total_alt.
    assert (is_Some (a !! k)) as [v ->]; [|done].
    apply elem_of_dom. unfold a. rewrite fill_defaults_dom. set_solver. }
  assert ("NORM" ∈ (set_map (λ k : string, a !!! k) (dom regex) : gset string)
                   ∪ {[a !!! TERM_ATTR]}
          ↔ ∃ k, k ∈ dom regex ∪ {[TERM_ATTR]} ∧ a !! k = Some "NORM") as Hnorm.
  { rewrite elem_of_union, elem_of_map, elem_of_singleton. split.
    - intros [(k & Hv & Hk)|Hv].
      + exists k. split; [set_solver|]. rewrite Htot by set_solver. by rewrite <- Hv.
      + exists TERM_ATTR. split; [set_solver|]. rewrite Htot by set_solver.
        by rewrite <- Hv.
    - intros (k & Hk & Hv). rewrite Htot in Hv by done. injection Hv as Hv.
      apply elem_of_union in Hk as [Hk|Hk]; [left; by eauto|right].
      apply elem_of_singleton in Hk. by subst k. }
  rewrite elem_of_app. split.
  - intros [Hw1|Hw2].
    + destruct (decide (_ = ∅)) in Hw1; [by apply elem_of_nil in Hw1|].
      by apply list_elem_of_singleton in Hw1.
    + destruct (bool_decide ("NORM" ∈ _)) eqn:Hn; simpl in Hw2;
        [|by apply elem_of_nil in Hw2].
      destruct (bool_decide ("normaliser" ∈ pipes)) eqn:Hp; simpl in Hw2;
        [by apply elem_of_nil in Hw2|].
      apply bool_decide_eq_true in Hn. apply bool_decide_eq_false in Hp.
      split; [done|]. by apply Hnorm.
  - intros [Hp Hn]. right. apply Hnorm in Hn.
    rewrite (bool_decide_eq_true_2 _ Hn), (bool_decide_eq_false_2 _ Hp). simpl.
    by apply list_elem_of_singleton.
Qed.

Lemma normaliser_warning_iff_witness :
  WarnNoNormaliser ∈ [WarnNoNormaliser] ↔
  ("normaliser" ∉ ([] : list string)) ∧
  ∃ k, k ∈ dom ({["dose" := VList ["\d+mg"]]} : pydict) ∪ {[TERM_ATTR]} ∧
       ({["dose" := "TEXT"; TERM_ATTR := "NORM"]} : gmap string string) !! k
       = Some "NORM".
Proof.
  apply (normaliser_warning_iff {["dose" := "text"]} {["dose" := VList ["\d+mg"]]} []).
  vm_compute. reflexivity.
Defined.

(** X6: resolving is idempotent: the map the mapping branch returns, given
    back as the [attr] argument, is returned as it is with the same
    warnings. *)
Theorem prepare_dict_fixpoint m (regex : pydict) pipes w out :
  _prepare_attr (AttrDict m) regex pipes = (w, inr out) →
  _prepare_attr (AttrDict out) regex pipes = (w, inr out).
Proof.
  intros Heq.
  assert (out = fill_defaults (dom regex ∪ {[TERM_ATTR]}) (upper <$> m)) as Hout.
  { unfold _prepare_attr in Heq. destruct (decide (_ ∖ supported = ∅)) in Heq; [|done].
    by injection Heq as _ <-. }
  assert (fill_defaults (dom regex ∪ {[TERM_ATTR]}) (upper <$> out) = out) as Hfix.
  { apply map_eq. intros k.
    rewrite fill_defaults_lookup, lookup_fmap, Hout, fill_defaults_lookup, lookup_fmap.
    destruct (m !! k) as [v|]; simpl; [by rewrite upper_idemp|].
    by case_bool_decide. }
  rewrite <- Heq. unfold _prepare_attr. rewrite Hfix, <- Hout. done.
Qed.

Lemma prepare_dict_fixpoint_witness :
  _prepare_attr (AttrDict {["DOSE" := "TEXT"; "dose" := "NORM"; TERM_ATTR := "NORM"]})
    {["dose" := VList ["\d+mg"]]} ["normaliser"]
  = ([WarnIgnoredKeys {["DOSE"]}],
     inr {["DOSE" := "TEXT"; "dose" := "NORM"; TERM_ATTR := "NORM"]}).
Proof.
  apply (prepare_dict_fixpoint {["DOSE" := "text"]}).
  vm_compute. reflexivity.
Defined.

(** ** [_to_dict_of_lists] and [__init__], beyond the claims *)

Lemma to_dict_ref_allocated d (h : heap) :
  ∃ d' : pydict, (_to_dict_of_lists d h).1 !! (_to_dict_of_lists d h).2 = Some d'.
Proof.
  unfold _to_dict_of_lists, or_dict, alloc_dict.
  destruct d as [l0|]; [destruct (decide (h !!! l0 = (∅ : pydict)))|]; simpl;
    eexists; apply lookup_insert_eq.
Qed.

(** X7: [_to_dict_of_lists] touches one object only, the one it returns, and
    that object holds nothing but lists afterwards. *)
Theorem to_dict_frame_and_shape d (h : heap) :
  (∀ l, l ≠ (_to_dict_of_lists d h).2 → (_to_dict_of_lists d h).1 !! l = h !! l) ∧
  ∃ d' : pydict,
    (_to_dict_of_lists d h).1 !! (_to_dict_of_lists d h).2 = Some d' ∧
    ∀ k v, d' !! k = Some v → ∃ items, v = VList items.
Proof.
  assert (∀ (h1 : heap) l1,
    (∀ l, l ≠ l1 → h1 !! l = h !! l) →
    (∀ l, l ≠ l1 → <[l1 := listify (h1 !!! l1)]> h1 !! l = h !! l) ∧
    ∃ d' : pydict, <[l1 := listify (h1 !!! l1)]> h1 !! l1 = Some d' ∧
      ∀ k v, d' !! k = Some v → ∃ items, v = VList items) as Hgen.
  { intros h1 l1 Hfr. split.
    - intros l Hl. rewrite lookup_insert_ne by done. by apply Hfr.
    - eexists. split; [apply lookup_insert_eq|].
      intros k v. rewrite listify_fmap, lookup_fmap.
      destruct (_ !! k) as [[]|]; simpl; intros [= <-]; eauto. }
  unfold _to_dict_of_lists, or_dict, alloc_dict.
  destruct d as [l0|]; [destruct (decide (h !!! l0 = (∅ : pydict)))|]; simpl;
    apply Hgen; intros l Hl; try done; by rewrite lookup_insert_ne.
Qed.

(** X8: an empty dictionary is falsy, so [d or dict()] drops it: the
    reference returned is a new dictionary and the caller's empty one is
    neither kept nor changed. *)
Theorem to_dict_empty_replaced l (h : heap) :
  h !! l = Some ∅ →
  (_to_dict_of_lists (Some l) h).2 ≠ l ∧
  ((_to_dict_of_lists (Some l) h).2 ∉ dom h) ∧
  (_to_dict_of_lists (Some l) h).1 !! (_to_dict_of_lists (Some l) h).2 = Some ∅ ∧
  (_to_dict_of_lists (Some l) h).1 !! l = Some ∅.
Proof.
  intros Hl. rewrite to_dict_ref, (lookup_total_correct _ _ _ Hl), decide_True by done.
  pose proof (is_fresh (dom h)) as Hfr.
  assert (fresh (dom h) ≠ l) as Hne.
  { intros Heq. apply Hfr. rewrite Heq. apply elem_of_dom. eauto. }
  split; [done|]. split; [done|].
  unfold _to_dict_of_lists, or_dict, alloc_dict.
  rewrite (lookup_total_correct _ _ _ Hl), decide_True by done. simpl.
  rewrite lookup_insert_eq, lookup_total_insert_eq, !lookup_insert_ne by done.
  split; [|done]. by rewrite listify_fmap, fmap_empty.
Qed.

Lemma to_dict_empty_replaced_witness :
  (_to_dict_of_lists (Some 1%positive) {[ 1%positive := ∅ ]}).2 ≠ 1%positive ∧
  ((_to_dict_of_lists (Some 1%positive) {[ 1%positive := ∅ ]}).2
     ∉ dom ({[ 1%positive := ∅ ]} : heap)) ∧
  (_to_dict_of_lists (Some 1%positive) {[ 1%positive := ∅ ]}).1
    !! (_to_dict_of_lists (Some 1%positive) {[ 1%positive := ∅ ]}).2 = Some ∅ ∧
  (_to_dict_of_lists (Some 1%positive) {[ 1%positive := ∅ ]}).1 !! 1%positive = Some ∅.
Proof.
  apply (to_dict_empty_replaced 1%positive {[ 1%positive := ∅ ]}). reflexivity.
Defined.

(** The returned dictionary is on the heap afterwards. *)
Lemma to_dict_ref_in_dom d (h : heap) :
  (_to_dict_of_lists d h).2 ∈ dom (_to_dict_of_lists d h).1.
Proof.
  destruct (to_dict_ref_allocated d h) as (d' & Hd').
  apply elem_of_dom. eauto.
Qed.

(** What a successful [__init__] put into the component. *)
Lemma init_success nlp c (h : heap) self :
  (__init__ nlp c h).2 = inr self →
  ∃ w a,
    _prepare_attr (cfg_attr c) ((__init__ nlp c h).1.1 !!! regex self) (pipe_names nlp)
      = (w, inr a) ∧
    attr self = a ∧
    regex_matcher self = add_regex ((__init__ nlp c h).1.1 !!! regex self) a ∧
    matcher self =
      add_terms nlp ((__init__ nlp c h).1.1 !!! terms self)
        (_create_matcher (cfg_fuzzy c) (cfg_fuzzy_kwargs c) (a !!! TERM_ATTR)).2 ∧
    fuzzy self = cfg_fuzzy c ∧
    (__init__ nlp c h).1.2 =
      w ++ (_create_matcher (cfg_fuzzy c) (cfg_fuzzy_kwargs c) (a !!! TERM_ATTR)).1.
Proof.
  unfold __init__.
  destruct (_to_dict_of_lists (cfg_terms c) h) as [h1 lt]; simpl.
  destruct (_to_dict_of_lists (cfg_regex c) h1) as [h2 lr]; simpl.
  destruct (_prepare_attr _ _ _) as [w [e|a]] eqn:Hprep; [done|].
  destruct (_create_matcher _ _ _) as [w' m] eqn:Hm. simpl.
  intros [= <-]. simpl. exists w, a. rewrite Hprep, Hm. repeat split.
Qed.

Lemma init_failure nlp c (h : heap) e :
  (__init__ nlp c h).2 = inl e →
  ∃ regex : pydict,
    _prepare_attr (cfg_attr c) regex (pipe_names nlp) = ((__init__ nlp c h).1.2, inl e).
Proof.
  unfold __init__.
  destruct (_to_dict_of_lists (cfg_terms c) h) as [h1 lt]; simpl.
  destruct (_to_dict_of_lists (cfg_regex c) h1) as [h2 lr]; simpl.
  destruct (_prepare_attr _ _ _) as [w [e'|a]] eqn:Hprep.
  - simpl. intros [= <-]. eauto.
  - by destruct (_create_matcher _ _ _).
Qed.

(** The caller's object after [__init__] (as in C10). *)
Lemma init_heap_lookup nlp c (h : heap) l (d : pydict) :
  cfg_terms c = Some l ∨ cfg_regex c = Some l →
  h !! l = Some d →
  (__init__ nlp c h).1.1 !! l = Some (as_list <$> d).
Proof.
  intros Hl Hd. rewrite init_heap.
  pose proof (to_dict_lookup (cfg_terms c) h l d Hd) as H1.
  rewrite (to_dict_lookup (cfg_regex c) _ l _ H1). f_equal.
  destruct (decide (cfg_regex c = Some l)), (decide (cfg_terms c = Some l));
    try done; [|by destruct Hl].
  rewrite <- map_fmap_compose. apply map_fmap_ext. intros ? ? _. apply as_list_idemp.
Qed.

(** X9: a [None] argument never ends up sharing its dictionary: when
    [terms] or [regex] is [None], the component's two dictionaries are
    different objects. *)
Theorem init_none_not_aliased nlp c (h : heap) self :
  cfg_terms c = None ∨ cfg_regex c = None →
  (__init__ nlp c h).2 = inr self →
  terms self ≠ regex self.
Proof.
  intros Hnone [Ht Hr]%init_refs. rewrite Ht, Hr.
  set (r1 := _to_dict_of_lists (cfg_terms c) h).
  pose proof (to_dict_ref_in_dom (cfg_terms c) h) as Hin. fold r1 in Hin.
  pose proof (is_fresh (dom r1.1)) as Hfr.
  rewrite (to_dict_ref (cfg_regex c) r1.1).
  destruct (cfg_regex c) as [lr|] eqn:Hregex; [|intros Heq; apply Hfr; by rewrite <- Heq].
  destruct Hnone as [Hterms|?]; [|done].
  destruct (decide (r1.1 !!! lr = (∅ : pydict))) as [He|Hne];
    [intros Heq; apply Hfr; by rewrite <- Heq|].
  intros <-. apply Hne. unfold r1. rewrite Hterms.
  destruct (to_dict_none h) as [_ Hempty].
  by apply lookup_total_correct.
Qed.

Lemma init_none_not_aliased_witness :
  ∃ self, (__init__ nlp0 (cfg0 (AttrStr "TEXT") None None) ∅).2 = inr self ∧
          terms self ≠ regex self.
Proof.
  eexists. split; [vm_compute; reflexivity|].
  apply (init_none_not_aliased nlp0 (cfg0 (AttrStr "TEXT") None None) ∅).
  - left. reflexivity.
  - vm_compute. reflexivity.
Defined.

(** The object [_to_dict_of_lists] returns holds the normalised items of its
    argument. *)
Lemma to_dict_result d (h : heap) :
  (_to_dict_of_lists d h).1 !! (_to_dict_of_lists d h).2 =
    Some (as_list <$> match d with Some l => h !!! l | None => (∅ : pydict) end).
Proof.
  unfold _to_dict_of_lists, or_dict, alloc_dict.
  destruct d as [l|]; [destruct (decide (h !!! l = (∅ : pydict))) as [He|]|]; simpl.
  - by rewrite lookup_insert_eq, lookup_total_insert_eq, listify_fmap, He.
  - by rewrite lookup_insert_eq, listify_fmap.
  - by rewrite lookup_insert_eq, lookup_total_insert_eq, listify_fmap.
Qed.

(** The dictionaries the component ends up with, in terms of the caller's. *)
Lemma init_terms_dict nlp c (h : heap) self lt (d : pydict) :
  (__init__ nlp c h).2 = inr self →
  cfg_terms c = Some lt → h !! lt = Some d →
  (__init__ nlp c h).1.1 !!! terms self = as_list <$> d.
Proof.
  intros [Ht _]%init_refs Hc Hd. rewrite init_heap, Ht, Hc.
  pose proof (to_dict_result (cfg_terms c) h) as H1.
  rewrite Hc, (lookup_total_correct _ _ _ Hd) in H1.
  apply lookup_total_correct.
  rewrite (to_dict_lookup (cfg_regex c) _ _ _ H1). f_equal.
  destruct (decide _); [|done].
  rewrite <- map_fmap_compose. apply map_fmap_ext. intros ? ? _. apply as_list_idemp.
Qed.

Lemma init_regex_dict nlp c (h : heap) self lr (d : pydict) :
  (__init__ nlp c h).2 = inr self →
  cfg_regex c = Some lr → h !! lr = Some d →
  (__init__ nlp c h).1.1 !!! regex self = as_list <$> d.
Proof.
  intros [_ Hr]%init_refs Hc Hd. rewrite init_heap, Hr.
  pose proof (to_dict_lookup (cfg_terms c) h lr d Hd) as H1.
  apply lookup_total_correct.
  rewrite to_dict_result, Hc, (lookup_total_correct _ _ _ H1). f_equal.
  destruct (decide _); [|done].
  rewrite <- map_fmap_compose. apply map_fmap_ext. intros ? ? _. apply as_list_idemp.
Qed.

(** Every regex label and the term key have a resolved attribute. *)
Lemma prepare_covers a (regex : pydict) pipes w out k :
  _prepare_attr a regex pipes = (w, inr out) →
  k ∈ dom regex ∪ {[TERM_ATTR]} →
  out !! k = Some (out !!! k).
Proof.
  intros Heq Hk. rewrite lookup_total_alt.
  assert (is_Some (out !! k)) as [v ->]; [|done].
  apply elem_of_dom. destruct a as [s|m].
  - injection Heq as _ <-. by rewrite dom_gset_to_gmap.
  - rewrite (prepare_dict_keys _ _ _ _ _ Heq). set_solver.
Qed.

Lemma prepare_dict_supported m (regex : pydict) pipes w out k :
  _prepare_attr (AttrDict m) regex pipes = (w, inr out) →
  k ∈ dom regex →
  out !!! k ∈ supported.
Proof.
  unfold _prepare_attr. intros Heq Hk.
  destruct (decide (_ ∖ supported = ∅)) as [He|] in Heq; [|done].
  injection Heq as _ <-.
  destruct (decide (fill_defaults (dom regex ∪ {[TERM_ATTR]}) (upper <$> m) !!! k
                    ∈ supported)) as [|Hbad]; [done|].
  assert (fill_defaults (dom regex ∪ {[TERM_ATTR]}) (upper <$> m) !!! k
          ∈ (∅ : gset string)) as Hin; [|set_solver].
  rewrite <- He. apply elem_of_difference. split; [|done].
  apply elem_of_map. eauto.
Qed.

(** X10: after a successful [__init__], the regex engine holds exactly the
    labels of the caller's [regex] dictionary, each with its patterns (a
    bare string counting as one pattern) and with the attribute resolved for
    that label, which exists; when [attr] was a mapping that attribute is
    "NORM" or "TEXT". *)
Theorem init_regex_registry nlp c (h : heap) self lr (d : pydict) k :
  (__init__ nlp c h).2 = inr self →
  cfg_regex c = Some lr →
  h !! lr = Some d →
  regex_matcher self !! k
    = (λ v, (expressions (as_list v), attr self !!! k)) <$> d !! k ∧
  (k ∈ dom d → attr self !! k = Some (attr self !!! k)) ∧
  (k ∈ dom d → ∀ m, cfg_attr c = AttrDict m → attr self !!! k ∈ supported).
Proof.
  intros Hok Hc Hd.
  destruct (init_success _ _ _ _ Hok) as (w & a & Hprep & Ha & Hreg & _).
  rewrite (init_regex_dict _ _ _ _ _ _ Hok Hc Hd) in Hprep, Hreg.
  rewrite Hreg, Ha. unfold add_regex. rewrite map_lookup_imap, lookup_fmap.
  split; [by destruct (d !! k)|]. split.
  - intros Hk. apply (prepare_covers _ _ _ _ _ _ Hprep).
    rewrite dom_fmap_L. set_solver.
  - intros Hk m Hm. rewrite Hm in Hprep.
    apply (prepare_dict_supported _ _ _ _ _ _ Hprep). by rewrite dom_fmap_L.
Qed.

Lemma init_regex_registry_witness :
  ∃ self,
    (__init__ nlp0 (cfg0 (AttrDict {["dose" := "text"]}) None (Some 1%positive)) heap1).2
      = inr self ∧
    regex_matcher self !! "dose"
      = (λ v, (expressions (as_list v), attr self !!! "dose"))
          <$> ({["dose" := VStr "\d+mg"]} : pydict) !! "dose".
Proof.
  destruct ((__init__ nlp0 (cfg0 (AttrDict {["dose" := "text"]}) None (Some 1%positive))
               heap1).2) as [e|self] eqn:Hres; [vm_compute in Hres; discriminate Hres|].
  exists self. split; [reflexivity|].
  apply (init_regex_registry nlp0
           (cfg0 (AttrDict {["dose" := "text"]}) None (Some 1%positive)) heap1 self
           1%positive {["dose" := VStr "\d+mg"]} "dose" Hres); reflexivity.
Defined.

Lemma patterns_add_terms nlp (t : pydict) m :
  patterns (add_terms nlp t m)
    = ((λ v, tokenizer nlp <$> expressions v) <$> t) ∪ patterns m.
Proof. by destruct m. Qed.

Lemma create_matcher_shape fz kw a :
  patterns (_create_matcher fz kw a).2 = ∅ ∧
  matcher_attr (_create_matcher fz kw a).2 = a ∧
  is_fuzzy (_create_matcher fz kw a).2 = fz ∧
  (_create_matcher fz kw a).1 = if fz then [WarnFuzzySlow] else [].
Proof. by destruct fz. Qed.

(** X11: after a successful [__init__], the exact/fuzzy engine holds exactly
    the labels of the caller's [terms] dictionary; a bare string is
    registered as one tokenized pattern (not character by character), a list
    as the tokenized strings in order; the engine matches on the attribute
    resolved for the term key. *)
Theorem init_term_patterns nlp c (h : heap) self lt (d : pydict) k :
  (__init__ nlp c h).2 = inr self →
  cfg_terms c = Some lt →
  h !! lt = Some d →
  patterns (matcher self) !! k
    = (λ v, match v with
            | VStr s => [tokenizer nlp s]
            | VList items => tokenizer nlp <$> items
            end) <$> d !! k ∧
  matcher_attr (matcher self) = attr self !!! TERM_ATTR.
Proof.
  intros Hok Hc Hd.
  destruct (init_success _ _ _ _ Hok) as (w & a & _ & Ha & _ & Hm & _).
  rewrite (init_terms_dict _ _ _ _ _ _ Hok Hc Hd) in Hm.
  destruct (create_matcher_shape (cfg_fuzzy c) (cfg_fuzzy_kwargs c) (a !!! TERM_ATTR))
    as (Hp & Hattr & _).
  rewrite Hm, Ha. split.
  - rewrite patterns_add_terms, Hp, (right_id_L ∅ (∪)), !lookup_fmap.
    by destruct (d !! k) as [[]|].
  - rewrite <- Hattr at 2. by destruct (_create_matcher _ _ _).2.
Qed.

Lemma init_term_patterns_witness :
  ∃ self,
    (__init__ nlp0 (cfg0 (AttrStr "TEXT") (Some 1%positive) None) heap1).2 = inr self ∧
    patterns (matcher self) !! "dose" = Some [tokenizer nlp0 "\d+mg"].
Proof.
  destruct ((__init__ nlp0 (cfg0 (AttrStr "TEXT") (Some 1%positive) None) heap1).2)
    as [e|self] eqn:Hres; [vm_compute in Hres; discriminate Hres|].
  exists self. split; [reflexivity|].
  destruct (init_term_patterns nlp0 (cfg0 (AttrStr "TEXT") (Some 1%positive) None)
              heap1 self 1%positive {["dose" := VStr "\d+mg"]} "dose" Hres) as [Hp _];
    [reflexivity..|].
  rewrite Hp. reflexivity.
Defined.

Lemma prepare_attr_no_fuzzy_warning a (regex : pydict) pipes :
  WarnFuzzySlow ∉ (_prepare_attr a regex pipes).1.
Proof.
  destruct a as [s|m]; simpl; [by intros ?%elem_of_nil|].
  assert (∀ D : gset string,
    WarnFuzzySlow ∉ (if decide (D = ∅) then [] else [WarnIgnoredKeys D])) as Hw1.
  { intros D. destruct (decide _); [by intros ?%elem_of_nil|].
    by intros ?%list_elem_of_singleton. }
  destruct (decide (_ ∖ supported = ∅)); simpl; [|apply Hw1].
  intros [Hin|Hin]%elem_of_app; [by apply Hw1 in Hin|].
  destruct (_ && _); [by apply list_elem_of_singleton in Hin|by apply elem_of_nil in Hin].
Qed.

(** X12: when construction succeeds, the warning about slow fuzzy matching
    is in the log exactly when [fuzzy] is set. *)
Theorem fuzzy_warning_on_success nlp c (h : heap) self :
  (__init__ nlp c h).2 = inr self →
  WarnFuzzySlow ∈ (__init__ nlp c h).1.2 ↔ fuzzy self = true.
Proof.
  intros Hres.
  destruct (init_success _ _ _ _ Hres) as (w & a & Hprep & _ & _ & _ & Hf & Hlog).
  pose proof (prepare_attr_no_fuzzy_warning (cfg_attr c)
                ((__init__ nlp c h).1.1 !!! regex self) (pipe_names nlp)) as Hno.
  rewrite Hprep in Hno. simpl in Hno.
  destruct (create_matcher_shape (cfg_fuzzy c) (cfg_fuzzy_kwargs c) (a !!! TERM_ATTR))
    as (_ & _ & _ & Hw).
  rewrite Hlog, Hw, Hf, elem_of_app. destruct (cfg_fuzzy c).
  - split; [done|]. intros _. right. by apply list_elem_of_singleton.
  - split; [|done]. intros [?|?%elem_of_nil]; done.
Qed.

Lemma fuzzy_warning_on_success_witness :
  ∃ self,
    (__init__ nlp0
       {| cfg_terms := None; cfg_attr := AttrStr "NORM"; cfg_regex := None;
          cfg_fuzzy := true; cfg_fuzzy_kwargs := None;
          cfg_filter_matches := true; cfg_on_ents_only := false |} ∅).2 = inr self ∧
    (WarnFuzzySlow ∈
       (__init__ nlp0
          {| cfg_terms := None; cfg_attr := AttrStr "NORM"; cfg_regex := None;
             cfg_fuzzy := true; cfg_fuzzy_kwargs := None;
             cfg_filter_matches := true; cfg_on_ents_only := false |} ∅).1.2
     ↔ fuzzy self = true).
Proof.
  destruct ((__init__ nlp0
       {| cfg_terms := None; cfg_attr := AttrStr "NORM"; cfg_regex := None;
          cfg_fuzzy := true; cfg_fuzzy_kwargs := None;
          cfg_filter_matches := true; cfg_on_ents_only := false |} ∅).2)
    as [e|self] eqn:Hres; [vm_compute in Hres; discriminate Hres|].
  exists self. split; [reflexivity|].
  apply (fuzzy_warning_on_success nlp0
           {| cfg_terms := None; cfg_attr := AttrStr "NORM"; cfg_regex := None;
              cfg_fuzzy := true; cfg_fuzzy_kwargs := None;
              cfg_filter_matches := true; cfg_on_ents_only := false |} ∅ self Hres).
Defined.

(** X13: the engine built agrees with the flag kept in [self.fuzzy], which
    [process] consults to resolve labels: a fuzzy engine exactly when the
    flag is set; it gets the caller's [fuzzy_kwargs] as they are, or
    min_r2 = 90 and ignore_case = True when none are given. *)
Theorem init_engine_kind nlp c (h : heap) self :
  (__init__ nlp c h).2 = inr self →
  is_fuzzy (matcher self) = fuzzy self ∧
  (fuzzy self = true →
     ∃ a p, matcher self =
       FuzzyMatcher a
         (default {["min_r2" := KwInt 90; "ignore_case" := KwBool true]}
            (cfg_fuzzy_kwargs c)) p).
Proof.
  intros Hok.
  destruct (init_success _ _ _ _ Hok) as (w & a & _ & _ & _ & Hm & Hf & _).
  rewrite Hm, Hf. unfold _create_matcher.
  destruct (cfg_fuzzy c); simpl; split; try done.
  intros _. destruct (cfg_fuzzy_kwargs c); simpl; eauto.
Qed.

Lemma init_engine_kind_witness :
  ∃ self,
    (__init__ nlp0
       {| cfg_terms := None; cfg_attr := AttrStr "NORM"; cfg_regex := None;
          cfg_fuzzy := true; cfg_fuzzy_kwargs := None;
          cfg_filter_matches := true; cfg_on_ents_only := false |} ∅).2 = inr self ∧
    is_fuzzy (matcher self) = fuzzy self.
Proof.
  destruct ((__init__ nlp0
       {| cfg_terms := None; cfg_attr := AttrStr "NORM"; cfg_regex := None;
          cfg_fuzzy := true; cfg_fuzzy_kwargs := None;
          cfg_filter_matches := true; cfg_on_ents_only := false |} ∅).2)
    as [e|self] eqn:Hres; [vm_compute in Hres; discriminate Hres|].
  exists self. split; [reflexivity|].
  apply (init_engine_kind nlp0
           {| cfg_terms := None; cfg_attr := AttrStr "NORM"; cfg_regex := None;
              cfg_fuzzy := true; cfg_fuzzy_kwargs := None;
              cfg_filter_matches := true; cfg_on_ents_only := false |} ∅ self Hres).
Defined.

(** ** [process] and [__call__], beyond the claims *)

Section process_further.
Context `{SetOrder}.
Variable sent : Doc → Span → Span.
Variable scan_terms : term_matcher → Doc → Scope → exn + list raw_match.
Variable scan_regex : regex_matcher_state → Doc → Scope → exn + list Span.
Variable vocab_strings : match_id → match_id.

(** X14: in whole-document mode an engine failure comes out of [__call__]
    as it is and [doc.ents] keeps its value: if the exact/fuzzy engine
    raises, the regex engine is not run; if the regex engine raises, the
    matches already found are dropped. *)
Theorem call_whole_doc_engine_failure self st :
  on_ents_only self = false →
  (∀ e, scan_terms (matcher self) (st_doc st) WholeDoc = inl e →
     __call__ sent scan_terms scan_regex vocab_strings self st
       = (mkState (st_doc st) (st_trace st ++ [ScanTerms WholeDoc]), inl e)) ∧
  (∀ ms e,
     scan_terms (matcher self) (st_doc st) WholeDoc = inr ms →
     scan_regex (regex_matcher self) (st_doc st) WholeDoc = inl e →
     __call__ sent scan_terms scan_regex vocab_strings self st
       = (mkState (st_doc st) (st_trace st ++ scans WholeDoc), inl e)).
Proof.
  intros Hon. unfold __call__, process. rewrite Hon.
  unfold call_matcher, call_regex_matcher.
  unfold mbind, P_bind, get_doc, log_event, lift, mret, P_ret. simpl.
  split.
  - intros e ->. done.
  - intros ms e -> ->. simpl. by rewrite <- app_assoc.
Qed.

Lemma scan_sentences_fail self (l : list Span) s acc st :
  s ∈ l →
  (∃ e, scan_terms (matcher self) (st_doc st) (Sentence s) = inl e) ∨
  (∃ e, scan_regex (regex_matcher self) (st_doc st) (Sentence s) = inl e) →
  ∃ st' e',
    for_each l (scan_sentence scan_terms scan_regex self) acc st = (st', inl e').
Proof.
  revert acc st. induction l as [|x l IH]; intros acc st Hs Hfail.
  - by apply elem_of_nil in Hs.
  - simpl. unfold mbind at 1, P_bind at 1.
    unfold scan_sentence at 1, call_matcher, call_regex_matcher.
    unfold mbind, P_bind, get_doc, log_event, lift, mret, P_ret. simpl.
    destruct (scan_terms (matcher self) (st_doc st) (Sentence x)) as [e|ms] eqn:Ht;
      simpl; [by eauto|].
    destruct (scan_regex (regex_matcher self) (st_doc st) (Sentence x)) as [e|rs] eqn:Hr;
      simpl; [by eauto|].
    fold (@mbind P _) in *.
    apply elem_of_cons in Hs as [->|Hs].
    + destruct Hfail as [[e He]|[e He]]; congruence.
    + apply IH; [done|]. simpl. done.
Qed.

(** X15: in entity-scoped mode, an engine that raises on one of the scanned
    sentences makes [process], and with it [__call__], raise; no span list
    is returned and [doc.ents] keeps its value. *)
Theorem ents_engine_failure self st s :
  on_ents_only self = true →
  s ∈ set_iter (sent (st_doc st) <$> ents (st_doc st)) →
  (∃ e, scan_terms (matcher self) (st_doc st) (Sentence s) = inl e) ∨
  (∃ e, scan_regex (regex_matcher self) (st_doc st) (Sentence s) = inl e) →
  ∃ st' e',
    process sent scan_terms scan_regex vocab_strings self st = (st', inl e') ∧
    __call__ sent scan_terms scan_regex vocab_strings self st = (st', inl e') ∧
    st_doc st' = st_doc st.
Proof.
  intros Hon Hs Hfail.
  pose proof (frames_process sent scan_terms scan_regex vocab_strings self st) as Hfr.
  destruct (scan_sentences_fail self _ s ([], []) st Hs Hfail) as (st' & e' & Hrun).
  assert (process sent scan_terms scan_regex vocab_strings self st = (st', inl e')) as Hp.
  { unfold process. rewrite Hon.
    unfold mbind at 1, P_bind at 1, get_doc at 1.
    unfold mbind at 1, P_bind at 1. by rewrite Hrun. }
  exists st', e'. rewrite Hp in Hfr. split; [done|]. split; [|done].
  unfold __call__, mbind, P_bind. by rewrite Hp.
Qed.

(** X16: [process] never writes to the document, whether it returns or
    raises: the document after the call is the document before it. *)
Theorem process_leaves_document self st :
  st_doc (process sent scan_terms scan_regex vocab_strings self st).1 = st_doc st.
Proof. apply frames_process. Qed.

(** X17: in entity-scoped mode, calling the component on a document without
    entities changes nothing and runs no engine. *)
Theorem call_without_entities self st :
  on_ents_only self = true →
  ents (st_doc st) = [] →
  __call__ sent scan_terms scan_regex vocab_strings self st = (st, inr (st_doc st)).
Proof.
  intros Hon Hents. unfold __call__, mbind, P_bind.
  rewrite (process_ents_ok _ _ _ _ self st (λ _, []) (λ _, []) Hon).
  - rewrite Hents. simpl. rewrite set_iter_nil. simpl.
    destruct st as [[toks es] tr]. simpl in *. subst es.
    rewrite app_nil_r.
    assert ((if filter_matches self then filter_spans [] else []) = []) as ->
      by (by destruct (filter_matches self)).
    reflexivity.
  - rewrite Hents. simpl. rewrite set_iter_nil. intros s Hs. by apply elem_of_nil in Hs.
  - rewrite Hents. simpl. rewrite set_iter_nil. intros s Hs. by apply elem_of_nil in Hs.
Qed.

(** X18: with [fuzzy] set, the labels are taken as the engine reports them:
    the result does not depend on [nlp.vocab.strings]. *)
Theorem fuzzy_ignores_vocab self st (other_strings : match_id → match_id) :
  fuzzy self = true →
  process sent scan_terms scan_regex vocab_strings self st
  = process sent scan_terms scan_regex other_strings self st.
Proof.
  intros Hf. unfold process, mbind, P_bind, get_doc, mret, P_ret.
  match goal with
  | |- context [match ?m st with _ => _ end] => destruct (m st) as [st1 [e|found]]
  end; [done|].
  assert (to_span vocab_strings self <$> found.1
          = to_span other_strings self <$> found.1) as ->; [|done].
  apply list_fmap_ext. intros i [[id b] e] _. unfold to_span. by rewrite Hf.
Qed.
End process_further.

Lemma call_whole_doc_engine_failure_witness :
  __call__ (H := newest_first) sent0 scan_terms_fails scan_regex0 vocab0
    (matcher0 false true) st0
  = (mkState doc0 ([] ++ [ScanTerms WholeDoc]), inl (EngineError "scan")).
Proof.
  apply (call_whole_doc_engine_failure (H := newest_first) sent0 scan_terms_fails
           scan_regex0 vocab0 (matcher0 false true) st0).
  - reflexivity.
  - reflexivity.
Defined.

Lemma ents_engine_failure_witness :
  ∃ st' e',
    process (H := newest_first) sent0 scan_terms_fails scan_regex0 vocab0
      (matcher0 true true) st0 = (st', inl e') ∧
    __call__ (H := newest_first) sent0 scan_terms_fails scan_regex0 vocab0
      (matcher0 true true) st0 = (st', inl e') ∧
    st_doc st' = st_doc st0.
Proof.
  apply (ents_engine_failure (H := newest_first) sent0 scan_terms_fails scan_regex0
           vocab0 (matcher0 true true) st0 sentA).
  - reflexivity.
  - vm_compute. apply list_elem_of_In. right. left. reflexivity.
  - left. eexists. reflexivity.
Defined.

Lemma call_without_entities_witness :
  __call__ (H := newest_first) sent0 scan_terms0 scan_regex0 vocab0
    (matcher0 true true) (mkState (mkDoc (tokens doc0) []) [])
  = (mkState (mkDoc (tokens doc0) []) [], inr (mkDoc (tokens doc0) [])).
Proof.
  apply (call_without_entities (H := newest_first) sent0 scan_terms0 scan_regex0
           vocab0 (matcher0 true true) (mkState (mkDoc (tokens doc0) []) [])).
  - reflexivity.
  - reflexivity.
Defined.

Lemma fuzzy_ignores_vocab_witness :
  process (H := newest_first) sent0 scan_terms0 scan_regex0 vocab0
    {| on_ents_only := false; terms := 1%positive; regex := 2%positive;
       fuzzy := true; filter_matches := false; attr := ∅;
       matcher := FuzzyMatcher "NORM" ∅ ∅; regex_matcher := ∅ |} st0
  = process (H := newest_first) sent0 scan_terms0 scan_regex0 (λ id, id)
      {| on_ents_only := false; terms := 1%positive; regex := 2%positive;
         fuzzy := true; filter_matches := false; attr := ∅;
         matcher := FuzzyMatcher "NORM" ∅ ∅; regex_matcher := ∅ |} st0.
Proof.
  apply (fuzzy_ignores_vocab (H := newest_first) sent0 scan_terms0 scan_regex0 vocab0).
  reflexivity.
Defined.
